(** * Tic-tac-toe player: board model and alpha-beta search

    A shallow embedding of [Search/tictactoe/tictactoe.py] and the
    verification of its specification.

    - A board is a Python list of rows, each a list of cells; a cell is
      [None] (EMPTY), ["X"] or ["O"].  Rows are distinct objects (as built
      by [initial_state] and [copy.deepcopy]), so a board is a value.
    - Python exceptions are results of type [exc]; list indexing follows
      Python (negative indices count from the end, anything else out of
      range raises [IndexError]).
    - [random.shuffle] is an operation on an abstract generator state that
      returns some permutation of its argument; the search threads that
      state. *)

From Stdlib Require Import ZArith List Bool Lia Permutation.
Import ListNotations.
Local Open Scope Z_scope.

Set Implicit Arguments.

(* ================================================================== *)
(** * Exceptions *)

Inductive exn : Type :=
| IndexError      (* list index out of range *)
| InvalidAction.  (* Exception('Not a valid action!') *)

Inductive exc (A : Type) : Type :=
| Val (a : A)
| Raise (e : exn).
Arguments Val {A} a.
Arguments Raise {A} e.

Definition ebind {A B} (m : exc A) (k : A -> exc B) : exc B :=
  match m with
  | Val a => k a
  | Raise e => Raise e
  end.

Declare Scope exc_scope.
Delimit Scope exc_scope with exc.
Notation "x <- m ;; k" := (ebind m (fun x => k))
  (at level 61, m at next level, right associativity) : exc_scope.

(* ================================================================== *)
(** * Python lists *)

Module PyList.

(** [l[i]] *)
Definition getitem {A} (l : list A) (i : Z) : exc A :=
  let n := Z.of_nat (length l) in
  let k := if i <? 0 then i + n else i in
  if (k <? 0) || (n <=? k) then Raise IndexError
  else match nth_error l (Z.to_nat k) with
       | Some a => Val a
       | None => Raise IndexError
       end.

Fixpoint update {A} (l : list A) (k : nat) (a : A) : list A :=
  match l, k with
  | [], _ => []
  | _ :: t, 0%nat => a :: t
  | h :: t, S k' => h :: update t k' a
  end.

(** [l[i] = a] *)
Definition setitem {A} (l : list A) (i : Z) (a : A) : exc (list A) :=
  let n := Z.of_nat (length l) in
  let k := if i <? 0 then i + n else i in
  if (k <? 0) || (n <=? k) then Raise IndexError
  else Val (update l (Z.to_nat k) a).

(** [enumerate(l)] *)
Fixpoint enumerate_from {A} (k : Z) (l : list A) : list (Z * A) :=
  match l with
  | [] => []
  | a :: t => (k, a) :: enumerate_from (k + 1) t
  end.

Definition enumerate {A} (l : list A) : list (Z * A) := enumerate_from 0 l.

(** [sum(l)] *)
Definition sum (l : list Z) : Z := fold_left Z.add l 0.

End PyList.
Import PyList.

(* ================================================================== *)
(** * Board model *)

Inductive mark : Type := X | O.

(** A cell: [EMPTY = None], or one of the strings [X], [O]. *)
Definition cell : Type := option mark.
Definition EMPTY : cell := None.

Definition board : Type := list (list cell).
Definition action : Type := (Z * Z)%type.

Definition ACCURACY : Z := 999999.

Definition mark_eqb (m1 m2 : mark) : bool :=
  match m1, m2 with
  | X, X | O, O => true
  | _, _ => false
  end.

(** Python [==] on cells. *)
Definition cell_eqb (c1 c2 : cell) : bool :=
  match c1, c2 with
  | None, None => true
  | Some m1, Some m2 => mark_eqb m1 m2
  | _, _ => false
  end.

Fixpoint row_eqb (r1 r2 : list cell) : bool :=
  match r1, r2 with
  | [], [] => true
  | c1 :: t1, c2 :: t2 => cell_eqb c1 c2 && row_eqb t1 t2
  | _, _ => false
  end.

(** Python [==] on boards. *)
Fixpoint board_eqb (b1 b2 : board) : bool :=
  match b1, b2 with
  | [], [] => true
  | r1 :: t1, r2 :: t2 => row_eqb r1 r2 && board_eqb t1 t2
  | _, _ => false
  end.

Definition initial_state : board :=
  [[EMPTY; EMPTY; EMPTY];
   [EMPTY; EMPTY; EMPTY];
   [EMPTY; EMPTY; EMPTY]].

(** [1 if elem == X else -1 if elem == O else 0] *)
Definition weight (elem : cell) : Z :=
  if cell_eqb elem (Some X) then 1
  else if cell_eqb elem (Some O) then -1
  else 0.

Definition count (b : board) : Z := sum (map weight (concat b)).

Definition player (b : board) : mark :=
  if count b =? 0 then X else O.

Definition actions (b : board) : list action :=
  flat_map
    (fun ir : Z * list cell =>
       flat_map
         (fun je : Z * cell =>
            if cell_eqb (snd je) EMPTY then [(fst ir, fst je)] else [])
         (enumerate (snd ir)))
    (enumerate b).

Local Open Scope exc_scope.

(** [board[i][j]] *)
Definition cell_at (b : board) (p : Z * Z) : exc cell :=
  row <- getitem b (fst p) ;;
  getitem row (snd p).

Definition result (b : board) (a : action) : exc board :=
  let '(i, j) := a in
  c <- cell_at b (i, j) ;;
  if negb (cell_eqb c EMPTY) then Raise InvalidAction
  else
    let new_board := b in
    row <- getitem new_board i ;;
    row' <- setitem row j (Some (player b)) ;;
    setitem new_board i row'.

(** [board[p] == board[q] == board[r] and board[p] != EMPTY], with
    Python's left-to-right, short-circuit evaluation. *)
Definition three_equal (b : board) (p q r : Z * Z) : exc bool :=
  x <- cell_at b p ;;
  y <- cell_at b q ;;
  if cell_eqb x y then
    z <- cell_at b r ;;
    if cell_eqb y z then
      x' <- cell_at b p ;;
      Val (negb (cell_eqb x' EMPTY))
    else Val false
  else Val false.

(** The [for i in range(3)] loop of [winner]: [Some c] when the loop
    returns [c], [None] when it falls through. *)
Fixpoint winner_loop (b : board) (range : list Z) : exc (option cell) :=
  match range with
  | [] => Val None
  | i :: rest =>
      r <- three_equal b (i, 0) (i, 1) (i, 2) ;;
      if r then (c <- cell_at b (i, 0) ;; Val (Some c))
      else
        k <- three_equal b (0, i) (1, i) (2, i) ;;
        if k then (c <- cell_at b (0, i) ;; Val (Some c))
        else winner_loop b rest
  end.

Definition winner (b : board) : exc cell :=
  r <- winner_loop b [0; 1; 2] ;;
  match r with
  | Some c => Val c
  | None =>
      d <- three_equal b (0, 0) (1, 1) (2, 2) ;;
      if d then cell_at b (0, 0)
      else
        d' <- three_equal b (0, 2) (1, 1) (2, 0) ;;
        if d' then cell_at b (0, 2)
        else Val None
  end.

(** What [winner(board) or actions(board) == []] evaluates to: the first
    operand when it is truthy (a mark, a non-empty string), else the
    second, a bool. *)
Inductive pyval : Type :=
| PyStr (m : mark)
| PyBool (t : bool).

Definition truthy (v : pyval) : bool :=
  match v with
  | PyStr _ => true
  | PyBool t => t
  end.

Definition terminal (b : board) : exc pyval :=
  w <- winner b ;;
  match w with
  | Some m => Val (PyStr m)
  | None => Val (PyBool (match actions b with [] => true | _ => false end))
  end.

(** [{X : 1, O : -1}.get(winner(board), 0)] *)
Definition utility (b : board) : exc Z :=
  w <- winner b ;;
  match w with
  | Some X => Val 1
  | Some O => Val (-1)
  | None => Val 0
  end.

Local Close Scope exc_scope.

(* ================================================================== *)
(** * Scores: Python ints together with [float('inf')], [float('-inf')] *)

Inductive score : Type :=
| NegInf
| Fin (z : Z)
| PosInf.

Definition score_ltb (a b : score) : bool :=
  match a, b with
  | NegInf, NegInf => false
  | NegInf, _ => true
  | Fin _, NegInf => false
  | Fin x, Fin y => x <? y
  | Fin _, PosInf => true
  | PosInf, _ => false
  end.

Definition score_leb (a b : score) : bool := negb (score_ltb b a).

(** Python's [min(a, b)] and [max(a, b)]: the first argument unless the
    second is strictly better. *)
Definition py_min (a b : score) : score := if score_ltb b a then b else a.
Definition py_max (a b : score) : score := if score_ltb a b then b else a.

(* ================================================================== *)
(** * Search engine *)

Section Search.

(** The state of Python's [random] module and [random.shuffle] on a
    list of actions. *)
Variable rng : Type.
Variable shuffle : rng -> list action -> list action * rng.

(** A computation that threads the generator state and may raise. *)
Definition search (A : Type) : Type := rng -> exc (A * rng).

Definition sret {A} (a : A) : search A := fun s => Val (a, s).

Definition sbind {A B} (m : search A) (k : A -> search B) : search B :=
  fun s =>
    match m s with
    | Val (a, s') => k a s'
    | Raise e => Raise e
    end.

Definition lift {A} (m : exc A) : search A :=
  fun s =>
    match m with
    | Val a => Val (a, s)
    | Raise e => Raise e
    end.

Definition random_shuffle (l : list action) : search (list action) :=
  fun s => Val (shuffle s l).

Notation "x <- m ;; k" := (sbind m (fun x => k))
  (at level 61, m at next level, right associativity).

Definition found : Type := (score * option action)%type.

(** [return utility(board), None] *)
Definition base_case (b : board) : search found :=
  u <- lift (utility b) ;;
  sret (Fin u, None).

(** The [for action in available_actions] loop of [maxValue]; [child]
    is the recursive call [minValue(_, depth - 1, _, _)]. *)
Fixpoint max_loop (child : board -> score -> score -> search found)
    (b : board) (available : list action)
    (v : score) (best_action : option action) (alpha beta : score)
    : search found :=
  match available with
  | [] => sret (v, best_action)
  | a :: rest =>
      b' <- lift (result b a) ;;
      r <- child b' alpha beta ;;
      let sc := fst r in
      let v' := if score_ltb v sc then sc else v in
      let best' := if score_ltb v sc then Some a else best_action in
      let alpha' := py_max alpha v' in
      if score_leb beta alpha' then sret (v', best')
      else max_loop child b rest v' best' alpha' beta
  end.

(** The loop of [minValue]; [child] is [maxValue(_, depth - 1, _, _)]. *)
Fixpoint min_loop (child : board -> score -> score -> search found)
    (b : board) (available : list action)
    (v : score) (best_action : option action) (alpha beta : score)
    : search found :=
  match available with
  | [] => sret (v, best_action)
  | a :: rest =>
      b' <- lift (result b a) ;;
      r <- child b' alpha beta ;;
      let sc := fst r in
      let v' := if score_ltb sc v then sc else v in
      let best' := if score_ltb sc v then Some a else best_action in
      let beta' := py_min beta v' in
      if score_leb beta' alpha then sret (v', best')
      else min_loop child b rest v' best' alpha beta'
  end.

(** [maxValue] and [minValue], by recursion on [d = depth + 1] ([0]
    when [depth < 0]): the recursive calls are at [depth - 1]. *)
Fixpoint maxValue_at (d : nat) (b : board) (alpha beta : score)
    {struct d} : search found :=
  match d with
  | 0%nat => base_case b
  | S d' =>
      t <- lift (terminal b) ;;
      if truthy t then base_case b
      else
        available_actions <- random_shuffle (actions b) ;;
        max_loop (minValue_at d') b available_actions NegInf None alpha beta
  end
with minValue_at (d : nat) (b : board) (alpha beta : score)
    {struct d} : search found :=
  match d with
  | 0%nat => base_case b
  | S d' =>
      t <- lift (terminal b) ;;
      if truthy t then base_case b
      else
        available_actions <- random_shuffle (actions b) ;;
        min_loop (maxValue_at d') b available_actions PosInf None alpha beta
  end.

Definition maxValue (b : board) (depth : Z) (alpha beta : score)
    : search found :=
  maxValue_at (Z.to_nat (depth + 1)) b alpha beta.

Definition minValue (b : board) (depth : Z) (alpha beta : score)
    : search found :=
  minValue_at (Z.to_nat (depth + 1)) b alpha beta.

(** [minimax]: [None] or an action. *)
Definition minimax (b : board) : search (option action) :=
  if board_eqb b initial_state then sret (Some (0, 0))
  else
    let func := match player b with X => maxValue | O => minValue end in
    r <- func b ACCURACY NegInf PosInf ;;
    sret (snd r).

(** ** The search with pruning disabled

    The same two procedures with the window held at
    (-infinity, +infinity) and the [beta <= alpha] break never taken. *)
Fixpoint max_loop_noprune (child : board -> search found)
    (b : board) (available : list action)
    (v : score) (best_action : option action) : search found :=
  match available with
  | [] => sret (v, best_action)
  | a :: rest =>
      b' <- lift (result b a) ;;
      r <- child b' ;;
      let sc := fst r in
      let v' := if score_ltb v sc then sc else v in
      let best' := if score_ltb v sc then Some a else best_action in
      max_loop_noprune child b rest v' best'
  end.

Fixpoint min_loop_noprune (child : board -> search found)
    (b : board) (available : list action)
    (v : score) (best_action : option action) : search found :=
  match available with
  | [] => sret (v, best_action)
  | a :: rest =>
      b' <- lift (result b a) ;;
      r <- child b' ;;
      let sc := fst r in
      let v' := if score_ltb sc v then sc else v in
      let best' := if score_ltb sc v then Some a else best_action in
      min_loop_noprune child b rest v' best'
  end.

Fixpoint maxValue_noprune_at (d : nat) (b : board) {struct d}
    : search found :=
  match d with
  | 0%nat => base_case b
  | S d' =>
      t <- lift (terminal b) ;;
      if truthy t then base_case b
      else
        available_actions <- random_shuffle (actions b) ;;
        max_loop_noprune (minValue_noprune_at d') b available_actions
          NegInf None
  end
with minValue_noprune_at (d : nat) (b : board) {struct d}
    : search found :=
  match d with
  | 0%nat => base_case b
  | S d' =>
      t <- lift (terminal b) ;;
      if truthy t then base_case b
      else
        available_actions <- random_shuffle (actions b) ;;
        min_loop_noprune (maxValue_noprune_at d') b available_actions
          PosInf None
  end.

Definition maxValue_noprune (b : board) (depth : Z) : search found :=
  maxValue_noprune_at (Z.to_nat (depth + 1)) b.

Definition minValue_noprune (b : board) (depth : Z) : search found :=
  minValue_noprune_at (Z.to_nat (depth + 1)) b.

End Search.

(* ================================================================== *)
(** * Game values *)

(** The board model as total functions. *)
Definition utility_of (b : board) : Z :=
  match utility b with Val u => u | Raise _ => 0 end.

Definition is_terminal (b : board) : bool :=
  match terminal b with Val t => truthy t | Raise _ => true end.

Definition move (b : board) (a : action) : board :=
  match result b a with Val b' => b' | Raise _ => b end.

Definition maximum (l : list score) : score := fold_right py_max NegInf l.
Definition minimum (l : list score) : score := fold_right py_min PosInf l.

(** The value of [b] when the two procedures alternate for [d] plies,
    starting with the maximizer when [maximizing] holds. *)
Fixpoint alt_value (maximizing : bool) (d : nat) (b : board) : score :=
  match d with
  | 0%nat => Fin (utility_of b)
  | S d' =>
      if is_terminal b then Fin (utility_of b)
      else
        let children := map (fun a => alt_value (negb maximizing) d' (move b a))
                            (actions b) in
        if maximizing then maximum children else minimum children
  end.

(** The minimax value of [b] looking [d] plies ahead: the player to move
    maximizes when it is X and minimizes when it is O. *)
Fixpoint game_value (d : nat) (b : board) : score :=
  match d with
  | 0%nat => Fin (utility_of b)
  | S d' =>
      if is_terminal b then Fin (utility_of b)
      else
        let children := map (fun a => game_value d' (move b a)) (actions b) in
        match player b with
        | X => maximum children
        | O => minimum children
        end
  end.

(** Full depth: a game lasts at most as many plies as there are empty
    cells. *)
Definition minimax_value (b : board) : score :=
  game_value (S (length (actions b))) b.

(** Shuffles used to run the search. *)
Definition keep_order (s : unit) (l : list action) : list action * unit := (l, s).
Definition reverse_order (s : unit) (l : list action) : list action * unit := (rev l, s).

(* ================================================================== *)
(** * Well-formed boards *)

(** The data model's invariant: exactly 3 rows of exactly 3 cells. *)
Definition wf_board (b : board) : Prop :=
  length b = 3%nat /\ Forall (fun row => length row = 3%nat) b.

Definition wf_boardb (b : board) : bool :=
  (length b =? 3)%nat && forallb (fun row => (length row =? 3)%nat) b.

Definition triples {A} (l : list A) : list (list A) :=
  flat_map (fun x => flat_map (fun y => map (fun z => [x; y; z]) l) l) l.

Definition all_cells : list cell := [EMPTY; Some X; Some O].
Definition all_rows : list (list cell) := triples all_cells.
(** All 3^9 well-formed boards. *)
Definition all_boards : list board := triples all_rows.

Definition action_eqb (a a' : action) : bool :=
  (fst a =? fst a') && (snd a =? snd a').

(** Playing a sequence of legal actions from a board, with [result]. *)
Fixpoint play (b : board) (moves : list action) : exc board :=
  match moves with
  | [] => Val b
  | a :: rest =>
      if existsb (action_eqb a) (actions b)
      then ebind (result b a) (fun b' => play b' rest)
      else Raise InvalidAction
  end.

(** A board reachable from the initial state by legal moves: each move
    targets an empty cell of the board it is played on. *)
Inductive reachable : board -> Prop :=
| reach_initial : reachable initial_state
| reach_move b a b' :
    reachable b -> In a (actions b) -> result b a = Val b' -> reachable b'.

(** A legal move keeps the board well formed, adds one mark of the
    player to move and uses up one empty cell. *)
Definition legal_moves_ok (b : board) : bool :=
  forallb
    (fun a =>
       match result b a with
       | Val b' =>
           wf_boardb b'
           && (count b' =? count b + (if count b =? 0 then 1 else -1))
           && (S (length (actions b')) =? length (actions b))%nat
       | Raise _ => false
       end)
    (actions b).

Definition winner_defined (b : board) : bool :=
  match winner b with Val _ => true | Raise _ => false end.

(* ================================================================== *)
(** * Scores in order; what a search may return *)

(** The order on scores, as propositions. *)
Definition slt (a b : score) : Prop := score_ltb a b = true.
Definition sle (a b : score) : Prop := score_ltb b a = false.

(** What a search with window [(alpha, beta)] may return at a position
    of value [m]: above [alpha] it is a lower bound of [m], below
    [beta] an upper bound; inside the window it is [m]. *)
Definition within (m alpha beta v : score) : Prop :=
  (slt alpha v -> sle v m) /\ (slt v beta -> sle m v).

(** A search procedure on a position of value [m]: for every window it
    returns a finite score within the bounds above. *)
Definition sound (rng : Type)
    (f : score -> score -> search rng found) (m : score) : Prop :=
  forall alpha beta s,
    slt alpha beta ->
    exists z a s',
      f alpha beta s = Val ((Fin z, a), s') /\ within m alpha beta (Fin z).

(** A search procedure that returns exactly [m]. *)
Definition exact (rng : Type) (f : search rng found) (m : score) : Prop :=
  forall s, exists a s', f s = Val ((m, a), s').

(** A score that is a utility: -1, 0 or 1. *)
Definition bounded (v : score) : Prop := exists z, v = Fin z /\ -1 <= z <= 1.

(** The action a procedure returns beside the value [v] at budget
    [depth]: none exactly in the base case ([depth < 0] or a terminal
    board), and otherwise an action of [actions board] whose child, seen
    with the remaining budget, has the value [v]; [child_maximizes] tells
    which of the two procedures evaluates the children. *)
Definition equal_value_choice (child_maximizes : bool) (b : board)
    (depth : Z) (v : score) (r : option action) : Prop :=
  match r with
  | None => depth < 0 \/ is_terminal b = true
  | Some a =>
      0 <= depth /\ is_terminal b = false /\ In a (actions b) /\
      alt_value child_maximizes (Z.to_nat depth) (move b a) = v
  end.

(* ================================================================== *)
(** * Example boards *)

(** X has taken a corner. *)
Definition after_corner : board :=
  [[Some X; EMPTY; EMPTY];
   [EMPTY; EMPTY; EMPTY];
   [EMPTY; EMPTY; EMPTY]].

(** X to move with the top row open at (0, 2). *)
Definition open_row : board :=
  [[Some X; Some X; EMPTY];
   [EMPTY; EMPTY; Some O];
   [EMPTY; Some O; EMPTY]].

(** X has won with the top row. *)
Definition x_won : board :=
  [[Some X; Some X; Some X];
   [Some O; Some O; EMPTY];
   [EMPTY; EMPTY; EMPTY]].

(** Two X and no O: not a position of the game. *)
Definition two_x : board :=
  [[Some X; Some X; EMPTY];
   [EMPTY; EMPTY; EMPTY];
   [EMPTY; EMPTY; EMPTY]].

(* ================================================================== *)
(** * The vocabulary of the claims *)

(** A board has at most nine empty cells. *)
Definition few_actions (b : board) : bool := (length (actions b) <=? 9)%nat.

(** An action targets an empty in-range cell. *)
Definition targets_empty_cell (b : board) (a : action) : Prop :=
  0 <= fst a <= 2 /\ 0 <= snd a <= 2 /\ cell_at b a = Val EMPTY.

(** C3 as stated: [result] raises exactly when the action does not
    target an empty in-range cell. *)
Definition raises_unless_empty_in_range (b : board) (a : action) : Prop :=
  result b a = Raise InvalidAction <-> ~ targets_empty_cell b a.

(** The coordinates address a cell of a 3x3 board as Python indices. *)
Definition addressed (a : action) : Prop :=
  -3 <= fst a <= 2 /\ -3 <= snd a <= 2.

(** The cell a pair of Python indices addresses. *)
Definition position (a : action) : action := (fst a mod 3, snd a mod 3).

(** [b'] is [b] with cell [p] set to [m]. *)
Definition set_at (b : board) (p : action) (m : mark) (b' : board) : Prop :=
  wf_board b' /\
  forall q, 0 <= fst q <= 2 -> 0 <= snd q <= 2 ->
    cell_at b' q = if action_eqb q p then Val (Some m) else cell_at b q.

(** The eight lines of the board and its nine cells. *)
Definition lines : list (list action) :=
  [[(0, 0); (0, 1); (0, 2)]; [(1, 0); (1, 1); (1, 2)]; [(2, 0); (2, 1); (2, 2)];
   [(0, 0); (1, 0); (2, 0)]; [(0, 1); (1, 1); (2, 1)]; [(0, 2); (1, 2); (2, 2)];
   [(0, 0); (1, 1); (2, 2)]; [(0, 2); (1, 1); (2, 0)]].

Definition cells : list action := concat [[(0, 0); (0, 1); (0, 2)];
                                          [(1, 0); (1, 1); (1, 2)];
                                          [(2, 0); (2, 1); (2, 2)]].

(** Cell [p] of [b] holds [c]. *)
Definition holds (b : board) (p : action) (c : cell) : bool :=
  match cell_at b p with
  | Val c' => cell_eqb c' c
  | Raise _ => false
  end.

(** [p] is the empty cell of a line whose two other cells hold [m]. *)
Definition completes (b : board) (m : mark) (p : action) : bool :=
  if holds b p EMPTY then
    existsb
      (fun line =>
         if existsb (action_eqb p) line
         then forallb (fun q => if action_eqb q p then true
                                else holds b q (Some m)) line
         else false)
      lines
  else false.

(** [m] has two marks in some line whose third cell is empty. *)
Definition open_two (b : board) (m : mark) : bool :=
  existsb (completes b m) cells.

(** C4 as stated: the action returned completes such a line. *)
Definition returns_completing_cell
    (rng : Type) (shuffle : rng -> list action -> list action * rng)
    (b : board) (s : rng) : Prop :=
  player b = X -> open_two b X = true ->
  exists a s', minimax shuffle b s = Val (Some a, s') /\ completes b X a = true.

(** On a non-terminal board with X to move, every cell that completes a
    line of X is a legal action that ends the game with utility 1. *)
Definition completion_wins (b : board) : bool :=
  if count b =? 0 then
    if is_terminal b then true
    else
      forallb
        (fun c =>
           if completes b X c
           then existsb (action_eqb c) (actions b)
                && is_terminal (move b c)
                && (utility_of (move b c) =? 1)
           else true)
        cells
  else true.

(** C7 as stated: a legal move hands the turn to the other player. *)
Definition turn_passes (b : board) (a : action) : Prop :=
  In a (actions b) ->
  exists b', result b a = Val b' /\ player b' <> player b.

(* ================================================================== *)
(** * The vocabulary of the further properties *)

Fixpoint actions_eqb (l1 l2 : list action) : bool :=
  match l1, l2 with
  | [], [] => true
  | a1 :: t1, a2 :: t2 => action_eqb a1 a2 && actions_eqb t1 t2
  | _, _ => false
  end.

(** The empty cells of a board, row by row. *)
Definition empty_cells (b : board) : list action :=
  filter (fun p => holds b p EMPTY) cells.

Definition actions_row_major (b : board) : bool :=
  actions_eqb (actions b) (empty_cells b).

(** A list of actions without [a]. *)
Definition without (a : action) (l : list action) : list action :=
  filter (fun p => negb (action_eqb p a)) l.

Definition move_uses_action (b : board) : bool :=
  forallb (fun a => actions_eqb (actions (move b a)) (without a (actions b)))
          (actions b).

(** The three cells of [line] hold [m]; some line does. *)
Definition line_of (b : board) (m : mark) (line : list action) : bool :=
  forallb (fun q => holds b q (Some m)) line.

Definition has_line (b : board) (m : mark) : bool :=
  existsb (line_of b m) lines.

Definition winner_scan_ok (b : board) : bool :=
  match winner b with
  | Val None => negb (has_line b X) && negb (has_line b O)
  | Val (Some m) => has_line b m
  | Raise _ => false
  end.

Definition terminal_persists (b : board) : bool :=
  if is_terminal b
  then forallb (fun a => is_terminal (move b a)) (actions b)
  else true.

Definition other (m : mark) : mark :=
  match m with X => O | O => X end.

(** The utility of a win of [m], and [count] when [m] is to move. *)
Definition win_value (m : mark) : Z :=
  match m with X => 1 | O => -1 end.

Definition turn_count (m : mark) : Z :=
  match m with X => 0 | O => 1 end.

(** With [m] to move on a non-terminal board, every cell that completes
    a line of [m] is a legal action that wins the game for [m]. *)
Definition completion_wins_for (m : mark) (b : board) : bool :=
  if count b =? turn_count m then
    if is_terminal b then true
    else
      forallb
        (fun c =>
           if completes b m c
           then existsb (action_eqb c) (actions b)
                && is_terminal (move b c)
                && (utility_of (move b c) =? win_value m)
           else true)
        cells
  else true.

(** With [m] to move on a non-terminal board where the other player has
    an open line, an action that does not complete that line either wins
    at once or leaves the other player an open line on a non-terminal
    board. *)
Definition unblocked_loses (m : mark) (b : board) : bool :=
  if count b =? turn_count m then
    if is_terminal b then true
    else
      forallb
        (fun a =>
           if completes b (other m) a then true
           else if open_two b (other m) then
             if is_terminal (move b a)
             then utility_of (move b a) =? win_value m
             else open_two (move b a) (other m)
           else true)
        (actions b)
  else true.

(** On a board without a winner, a move can only make the mover win. *)
Definition only_mover_wins (b : board) : bool :=
  match winner b with
  | Val None =>
      forallb
        (fun a =>
           match winner (move b a) with
           | Val None => true
           | Val (Some m) => mark_eqb m (player b)
           | Raise _ => false
           end)
        (actions b)
  | _ => true
  end.

(** X to move; O threatens the diagonal at (0, 0). *)
Definition must_block : board :=
  [[EMPTY; EMPTY; EMPTY];
   [EMPTY; Some O; EMPTY];
   [Some X; Some X; Some O]].

(** O to move with the middle row open at (1, 2). *)
Definition o_to_win : board :=
  [[Some X; Some X; EMPTY];
   [Some O; Some O; EMPTY];
   [Some X; EMPTY; EMPTY]].

(* ================================================================== *)
(** * Enumerating the well-formed boards *)

Lemma triples_In {A} (l : list A) x y z :
  In x l -> In y l -> In z l -> In [x; y; z] (triples l).
Proof.
  intros Hx Hy Hz. unfold triples.
  apply in_flat_map. exists x. split; [assumption|].
  apply in_flat_map. exists y. split; [assumption|].
  apply (in_map (fun z' => [x; y; z'])). assumption.
Qed.

Lemma all_cells_complete (c : cell) : In c all_cells.
Proof. destruct c as [[|]|]; simpl; auto. Qed.

Lemma all_rows_complete (r : list cell) : length r = 3%nat -> In r all_rows.
Proof.
  destruct r as [|x [|y [|z [|? ?]]]]; try discriminate. intros _.
  apply triples_In; apply all_cells_complete.
Qed.

Lemma wf_board_shape b :
  wf_board b ->
  exists c00 c01 c02 c10 c11 c12 c20 c21 c22,
    b = [[c00; c01; c02]; [c10; c11; c12]; [c20; c21; c22]].
Proof.
  intros [Hlen Hrows].
  destruct b as [|r0 [|r1 [|r2 [|? ?]]]]; try discriminate.
  inversion Hrows as [|? ? H0 Hrows1]; subst.
  inversion Hrows1 as [|? ? H1 Hrows2]; subst.
  inversion Hrows2 as [|? ? H2 _]; subst.
  destruct r0 as [|? [|? [|? [|? ?]]]]; try discriminate.
  destruct r1 as [|? [|? [|? [|? ?]]]]; try discriminate.
  destruct r2 as [|? [|? [|? [|? ?]]]]; try discriminate.
  repeat eexists.
Qed.

Lemma all_boards_complete b : wf_board b -> In b all_boards.
Proof.
  intros Hwf. destruct (wf_board_shape Hwf)
    as (c00 & c01 & c02 & c10 & c11 & c12 & c20 & c21 & c22 & ->).
  apply triples_In; apply all_rows_complete; reflexivity.
Qed.

Lemma wf_boardb_spec b : wf_boardb b = true <-> wf_board b.
Proof.
  unfold wf_boardb, wf_board. rewrite andb_true_iff, Nat.eqb_eq, forallb_forall, Forall_forall.
  split; intros [H1 H2]; split; trivial; intros r Hr; apply Nat.eqb_eq; auto.
Qed.

(** Checking a decidable property on every well-formed board. *)
Lemma all_boards_check (P : board -> bool) :
  forallb P all_boards = true -> forall b, wf_board b -> P b = true.
Proof.
  intros Hall b Hwf. rewrite forallb_forall in Hall.
  apply Hall, all_boards_complete, Hwf.
Qed.

Lemma legal_moves_ok_all : forallb legal_moves_ok all_boards = true.
Proof. vm_compute. reflexivity. Qed.

Lemma winner_defined_all : forallb winner_defined all_boards = true.
Proof. vm_compute. reflexivity. Qed.

(* ================================================================== *)
(** * The board model on well-formed boards *)

Lemma winner_total b : wf_board b -> exists w, winner b = Val w.
Proof.
  intros Hwf. pose proof (all_boards_check _ winner_defined_all Hwf) as H.
  unfold winner_defined in H. destruct (winner b) as [w|]; [eauto | discriminate].
Qed.

Lemma utility_total b :
  wf_board b -> utility b = Val (utility_of b) /\ -1 <= utility_of b <= 1.
Proof.
  intros Hwf. destruct (winner_total Hwf) as [w Hw].
  unfold utility_of, utility. rewrite Hw. simpl.
  destruct w as [[|]|]; split; (reflexivity || lia).
Qed.

Lemma terminal_total b :
  wf_board b -> exists t, terminal b = Val t /\ truthy t = is_terminal b.
Proof.
  intros Hwf. destruct (winner_total Hwf) as [w Hw].
  unfold is_terminal, terminal. rewrite Hw. simpl.
  destruct w; eexists; split; reflexivity.
Qed.

Lemma not_terminal_actions b :
  wf_board b -> is_terminal b = false -> actions b <> [].
Proof.
  intros Hwf Hnt Hnil. destruct (winner_total Hwf) as [w Hw].
  unfold is_terminal, terminal in Hnt. rewrite Hw in Hnt. simpl in Hnt.
  destruct w; simpl in Hnt; [discriminate|]. rewrite Hnil in Hnt. discriminate.
Qed.

Lemma legal_move b a :
  wf_board b -> In a (actions b) ->
  result b a = Val (move b a) /\
  wf_board (move b a) /\
  count (move b a) = count b + (if count b =? 0 then 1 else -1) /\
  S (length (actions (move b a))) = length (actions b).
Proof.
  intros Hwf Ha. pose proof (all_boards_check _ legal_moves_ok_all Hwf) as H.
  unfold legal_moves_ok in H. rewrite forallb_forall in H. specialize (H a Ha).
  unfold move. destruct (result b a) as [b'|]; [|discriminate].
  apply andb_true_iff in H. destruct H as [H H3].
  apply andb_true_iff in H. destruct H as [H1 H2].
  apply wf_boardb_spec in H1. apply Z.eqb_eq in H2. apply Nat.eqb_eq in H3.
  auto.
Qed.

Lemma reachable_wf b : reachable b -> wf_board b /\ (count b = 0 \/ count b = 1).
Proof.
  induction 1 as [|b a b' Hr [IHwf IHc] Ha Hres].
  - split; [apply wf_boardb_spec; reflexivity | left; reflexivity].
  - destruct (legal_move a IHwf Ha) as (Hm & Hwf' & Hc & _).
    rewrite Hres in Hm. injection Hm as ->. split; [assumption|].
    rewrite Hc. destruct IHc as [-> | ->]; simpl; auto.
Qed.

(* ================================================================== *)
(** * The order on scores *)

(** Decides a goal about the order from the hypotheses about it, by cases
    on the scores involved. *)
Ltac score_order :=
  unfold slt, sle, score_leb, py_max, py_min in *;
  repeat match goal with x : score |- _ => destruct x end;
  repeat (simpl in *;
          match goal with
          | H : context [?x <? ?y] |- _ => destruct (Z.ltb_spec x y)
          | |- context [?x <? ?y] => destruct (Z.ltb_spec x y)
          end);
  simpl in *; try congruence; try lia; try (f_equal; lia); auto.

Lemma sle_refl a : sle a a.
Proof. score_order. Qed.

Lemma sle_neginf a : sle NegInf a.
Proof. score_order. Qed.

Lemma sle_posinf a : sle a PosInf.
Proof. score_order. Qed.

Lemma sle_antisym a b : sle a b -> sle b a -> a = b.
Proof. intros; score_order. Qed.

Lemma sle_trans a b c : sle a b -> sle b c -> sle a c.
Proof. intros; score_order. Qed.

Lemma maximum_ge l x : In x l -> sle x (maximum l).
Proof.
  induction l as [|y l IH]; simpl; [tauto|].
  intros [-> | Hin].
  - generalize (maximum l). intros m. score_order.
  - specialize (IH Hin). revert IH. generalize (maximum l). intros m IH. score_order.
Qed.

Lemma maximum_le l u : (forall x, In x l -> sle x u) -> sle (maximum l) u.
Proof.
  induction l as [|y l IH]; simpl; intros H.
  - score_order.
  - assert (Hy : sle y u) by (apply H; auto).
    assert (Hl : sle (maximum l) u) by (apply IH; intros; apply H; auto).
    revert Hy Hl. generalize (maximum l). clear. intros m Hy Hl. score_order.
Qed.

Lemma minimum_le l x : In x l -> sle (minimum l) x.
Proof.
  induction l as [|y l IH]; simpl; [tauto|].
  intros [-> | Hin].
  - generalize (minimum l). intros m. score_order.
  - specialize (IH Hin). revert IH. generalize (minimum l). intros m IH. score_order.
Qed.

Lemma minimum_ge l u : (forall x, In x l -> sle u x) -> sle u (minimum l).
Proof.
  induction l as [|y l IH]; simpl; intros H.
  - score_order.
  - assert (Hy : sle u y) by (apply H; auto).
    assert (Hl : sle u (minimum l)) by (apply IH; intros; apply H; auto).
    revert Hy Hl. generalize (minimum l). clear. intros m Hy Hl. score_order.
Qed.

(* ================================================================== *)
(** * Facts about game values *)

Lemma cell_eqb_eq c1 c2 : cell_eqb c1 c2 = true <-> c1 = c2.
Proof.
  destruct c1 as [[|]|], c2 as [[|]|]; simpl; split; congruence.
Qed.

Lemma row_eqb_eq r1 r2 : row_eqb r1 r2 = true <-> r1 = r2.
Proof.
  revert r2. induction r1 as [|c1 r1 IH]; intros [|c2 r2]; simpl;
    try (split; congruence).
  rewrite andb_true_iff, cell_eqb_eq, IH. split; [intros [-> ->] | intros [= -> ->]]; auto.
Qed.

Lemma board_eqb_eq b1 b2 : board_eqb b1 b2 = true <-> b1 = b2.
Proof.
  revert b2. induction b1 as [|r1 b1 IH]; intros [|r2 b2]; simpl;
    try (split; congruence).
  rewrite andb_true_iff, row_eqb_eq, IH. split; [intros [-> ->] | intros [= -> ->]]; auto.
Qed.

Lemma player_count b :
  (player b = X <-> count b = 0) /\ (player b = O <-> count b <> 0).
Proof.
  unfold player. destruct (Z.eqb_spec (count b) 0); split; split; congruence.
Qed.

Lemma few_actions_all : forallb few_actions all_boards = true.
Proof. vm_compute. reflexivity. Qed.

Lemma actions_length b : wf_board b -> (length (actions b) <= 9)%nat.
Proof.
  intros Hwf. apply Nat.leb_le. exact (all_boards_check _ few_actions_all Hwf).
Qed.

(** While X and O have moved equally often, or X once more, the two
    procedures alternate in step with the player to move. *)
Lemma alt_value_game d :
  forall b, wf_board b ->
    (count b = 0 -> alt_value true d b = game_value d b) /\
    (count b = 1 -> alt_value false d b = game_value d b).
Proof.
  induction d as [|d IH]; intros b Hwf; [split; reflexivity|].
  split; intros Hc; simpl; destruct (is_terminal b); trivial;
    unfold player; rewrite Hc; simpl; f_equal;
    apply map_ext_in; intros a Ha;
    destruct (legal_move a Hwf Ha) as (_ & Hwf' & Hc' & _);
    rewrite Hc in Hc'; simpl in Hc'; apply IH; assumption.
Qed.

(** Looking further ahead than there are empty cells changes nothing. *)
Lemma game_value_deep d :
  forall d' b, wf_board b ->
    (length (actions b) < d)%nat -> (length (actions b) < d')%nat ->
    game_value d b = game_value d' b.
Proof.
  induction d as [|d IH]; intros d' b Hwf Hd Hd'; [lia|].
  destruct d' as [|d']; [lia|]. simpl.
  destruct (is_terminal b); trivial.
  assert (Hkids : map (fun a => game_value d (move b a)) (actions b) =
                  map (fun a => game_value d' (move b a)) (actions b)).
  { apply map_ext_in. intros a Ha.
    destruct (legal_move a Hwf Ha) as (_ & Hwf' & _ & Hlen).
    apply IH; [assumption | lia | lia]. }
  rewrite Hkids. reflexivity.
Qed.

Lemma game_value_full d b :
  wf_board b -> (length (actions b) < d)%nat -> game_value d b = minimax_value b.
Proof.
  intros Hwf Hd. unfold minimax_value. apply game_value_deep; trivial. lia.
Qed.

Lemma maximum_bounded l : Forall bounded l -> l <> [] -> bounded (maximum l).
Proof.
  induction 1 as [|v l (z & -> & Hz) Hl IHl]; [congruence|]. intros _.
  simpl. destruct l as [|v' l'].
  - simpl. exists z. split; [reflexivity | lia].
  - destruct IHl as (z' & Heq & Hz'); [discriminate|]. rewrite Heq.
    unfold py_max. simpl. destruct (z <? z'); [exists z' | exists z]; auto.
Qed.

Lemma minimum_bounded l : Forall bounded l -> l <> [] -> bounded (minimum l).
Proof.
  induction 1 as [|v l (z & -> & Hz) Hl IHl]; [congruence|]. intros _.
  simpl. destruct l as [|v' l'].
  - simpl. exists z. split; [reflexivity | lia].
  - destruct IHl as (z' & Heq & Hz'); [discriminate|]. rewrite Heq.
    unfold py_min. simpl. destruct (z' <? z); [exists z' | exists z]; auto.
Qed.

Lemma game_value_bounds d :
  forall b, wf_board b -> (length (actions b) < d)%nat ->
    bounded (game_value d b).
Proof.
  induction d as [|d IH]; intros b Hwf Hd; [lia|]. simpl.
  destruct (is_terminal b) eqn:Ht;
    [exists (utility_of b); split; [reflexivity | apply utility_total, Hwf]|].
  pose proof (not_terminal_actions Hwf Ht) as Hne.
  assert (Hkids : Forall bounded
                    (map (fun a => game_value d (move b a)) (actions b))).
  { apply Forall_forall. intros v Hv. apply in_map_iff in Hv.
    destruct Hv as (a & <- & Ha).
    destruct (legal_move a Hwf Ha) as (_ & Hwf' & _ & Hlen).
    apply IH; [assumption | lia]. }
  assert (Hmap : map (fun a => game_value d (move b a)) (actions b) <> [])
    by (destruct (actions b); [congruence | discriminate]).
  destruct (player b); [apply maximum_bounded | apply minimum_bounded]; assumption.
Qed.

(** The alternating value of a well-formed board is a utility. *)
Lemma alt_value_bounded mx d :
  forall b, wf_board b -> bounded (alt_value mx d b).
Proof.
  revert mx. induction d as [|d IH]; intros mx b Hwf.
  - exists (utility_of b). split; [reflexivity | apply utility_total, Hwf].
  - simpl. destruct (is_terminal b) eqn:Ht;
      [exists (utility_of b); split; [reflexivity | apply utility_total, Hwf]|].
    assert (Hkids : Forall bounded
                      (map (fun a => alt_value (negb mx) d (move b a)) (actions b))).
    { apply Forall_forall. intros v Hv. apply in_map_iff in Hv.
      destruct Hv as (a & <- & Ha).
      destruct (legal_move a Hwf Ha) as (_ & Hwf' & _).
      apply IH, Hwf'. }
    assert (Hmap : map (fun a => alt_value (negb mx) d (move b a)) (actions b) <> [])
      by (pose proof (not_terminal_actions Hwf Ht);
          destruct (actions b); [congruence | discriminate]).
    destruct mx; [apply maximum_bounded | apply minimum_bounded]; assumption.
Qed.

(* ================================================================== *)
(** * Alpha-beta search returns the minimax value *)

Section AlphaBeta.

Variable rng : Type.
Variable shuffle : rng -> list action -> list action * rng.
(** [random.shuffle] permutes its argument. *)
Hypothesis shuffle_perm : forall s l, Permutation (fst (shuffle s l)) l.

Lemma max_loop_cons (child : board -> score -> score -> search rng found) b a rest v best alpha beta s b' sc a' s1 :
  result b a = Val b' ->
  child b' alpha beta s = Val ((sc, a'), s1) ->
  max_loop child b (a :: rest) v best alpha beta s =
  let v' := if score_ltb v sc then sc else v in
  let best' := if score_ltb v sc then Some a else best in
  if score_leb beta (py_max alpha v') then Val ((v', best'), s1)
  else max_loop child b rest v' best' (py_max alpha v') beta s1.
Proof.
  intros Hres Hchild. simpl. unfold sbind, lift. rewrite Hres, Hchild. simpl.
  destruct (score_leb beta _); reflexivity.
Qed.

Lemma min_loop_cons (child : board -> score -> score -> search rng found) b a rest v best alpha beta s b' sc a' s1 :
  result b a = Val b' ->
  child b' alpha beta s = Val ((sc, a'), s1) ->
  min_loop child b (a :: rest) v best alpha beta s =
  let v' := if score_ltb sc v then sc else v in
  let best' := if score_ltb sc v then Some a else best in
  if score_leb (py_min beta v') alpha then Val ((v', best'), s1)
  else min_loop child b rest v' best' alpha (py_min beta v') s1.
Proof.
  intros Hres Hchild. simpl. unfold sbind, lift. rewrite Hres, Hchild. simpl.
  destruct (score_leb _ alpha); reflexivity.
Qed.

(** The maximizer's loop, started with running best [v <= alpha]. *)
Lemma max_loop_sound (child : board -> score -> score -> search rng found) b (mval : board -> score) acts :
  (forall a, In a acts ->
     result b a = Val (move b a) /\
     sound (child (move b a)) (mval (move b a))) ->
  forall v best alpha beta s,
    slt alpha beta -> sle v alpha -> slt v PosInf ->
    exists v' best' s',
      max_loop child b acts v best alpha beta s = Val ((v', best'), s') /\
      sle v v' /\ slt v' PosInf /\ (acts <> [] -> slt NegInf v') /\
      (slt alpha v' -> exists a, In a acts /\ sle v' (mval (move b a))) /\
      (slt v' beta -> forall a, In a acts -> sle (mval (move b a)) v') /\
      (v' = v -> best' = best) /\
      (slt v v' ->
       exists a, best' = Some a /\ In a acts /\
                 (slt alpha v' -> slt v' beta -> mval (move b a) = v')).
Proof.
  induction acts as [|a rest IH]; intros Hch v best alpha beta s Hab Hva Hv.
  - exists v, best, s. repeat split; trivial.
    + apply sle_refl.
    + intros H; now elim H.
    + intros H. exfalso. clear - H Hva. score_order.
    + intros _ a [].
    + intros H. exfalso. clear - H. score_order.
  - destruct (Hch a (or_introl eq_refl)) as [Hres Hsound].
    destruct (Hsound alpha beta s Hab) as (z & a' & s1 & Hchild & Hw).
    erewrite max_loop_cons; [|exact Hres|exact Hchild]. cbv zeta.
    remember (mval (move b a)) as m0 eqn:Hm0.
    set (v1 := if score_ltb v (Fin z) then Fin z else v).
    set (best1 := if score_ltb v (Fin z) then Some a else best).
    assert (Hv1 : sle v v1 /\ slt v1 PosInf /\ slt NegInf v1 /\ sle (Fin z) v1)
      by (subst v1; clear - Hv; destruct (score_ltb v (Fin z)) eqn:E;
          repeat split; score_order).
    destruct Hv1 as (Hvv1 & Hv1fin & Hv1neg & Hzv1).
    assert (Hup : (v1 = Fin z /\ best1 = Some a /\ slt v v1)
                  \/ (v1 = v /\ best1 = best))
      by (subst v1 best1; destruct (score_ltb v (Fin z)) eqn:E; auto).
    clearbody v1 best1.
    destruct (score_leb beta (py_max alpha v1)) eqn:Hbrk.
    + (* break *)
      exists v1, best1, s1. repeat split; trivial.
      * intros Hav. exists a. split; [left; reflexivity|]. rewrite <- Hm0.
        destruct Hup as [(-> & _ & _) | (-> & _)];
          [apply Hw; assumption | exfalso; clear - Hav Hva; score_order].
      * intros Hvb. exfalso. clear - Hvb Hbrk Hab. score_order.
      * intros ->. destruct Hup as [(_ & _ & Hlt) | (_ & ->)]; trivial.
        exfalso. clear - Hlt. score_order.
      * intros Hlt. destruct Hup as [(-> & -> & _) | (-> & _)].
        -- exists a. repeat split; [left; reflexivity|].
           intros _ Hvb. exfalso. clear - Hvb Hbrk Hab. score_order.
        -- exfalso. clear - Hlt. score_order.
    + (* next action *)
      assert (Hab1 : slt (py_max alpha v1) beta) by (clear - Hbrk; score_order).
      assert (Hva1 : sle v1 (py_max alpha v1)) by (clear; score_order).
      destruct (IH (fun a0 H => Hch a0 (or_intror H)) v1 best1 _ beta s1 Hab1 Hva1 Hv1fin)
        as (v' & best' & s' & Hrun & Hle & Hfin & _ & Hlow & Hupp & Hsame & Hbest).
      exists v', best', s'. repeat split; trivial.
      * clear - Hvv1 Hle. score_order.
      * intros _. clear - Hv1neg Hle. score_order.
      * intros Hav. destruct (score_ltb (py_max alpha v1) v') eqn:E.
        -- destruct (Hlow E) as (a0 & Hin & Hs). exists a0. split; [right|]; trivial.
        -- exists a. split; [left; reflexivity|]. rewrite <- Hm0.
           destruct Hw as [Hw1 _].
           destruct Hup as [(Hz & _ & Hlt) | (Hz & _)].
           ++ assert (Hz' : slt alpha (Fin z))
                by (clear - Hz E Hav Hle; subst v1; score_order).
              specialize (Hw1 Hz'). clear - Hw1 Hz E Hav Hle. subst v1. score_order.
           ++ exfalso. clear - Hz E Hav Hle Hva. subst v1. score_order.
      * intros Hvb a0 [<- | Hin]; [|apply Hupp; assumption].
        rewrite <- Hm0. destruct Hw as [_ Hw2].
        assert (Hz' : slt (Fin z) beta) by (clear - Hvb Hle Hzv1; score_order).
        specialize (Hw2 Hz'). clear - Hw2 Hle Hzv1. score_order.
      * intros ->. destruct Hup as [(_ & _ & Hlt) | (Hz & ->)].
        -- exfalso. clear - Hlt Hle. score_order.
        -- apply Hsame. symmetry. exact Hz.
      * intros Hlt. destruct (score_ltb v1 v') eqn:E.
        -- destruct (Hbest E) as (a0 & Hb & Hin & Hval).
           exists a0. repeat split; [assumption | right; assumption |].
           intros Hav Hvb. apply Hval; trivial. clear - Hav E. score_order.
        -- assert (Heq : v' = v1) by (apply sle_antisym; [exact E | exact Hle]).
           subst v'. rewrite (Hsame eq_refl).
           destruct Hup as [(Hz & -> & _) | (Hz & _)].
           ++ exists a. repeat split; [left; reflexivity|].
              intros Hav Hvb. rewrite <- Hm0. subst v1. destruct Hw as [Hw1 Hw2].
              apply sle_antisym; [apply Hw2 | apply Hw1]; assumption.
           ++ exfalso. clear - Hz Hlt. subst v1. score_order.
Qed.

(** The minimizer's loop, started with running best [v >= beta]. *)
Lemma min_loop_sound (child : board -> score -> score -> search rng found)
    b (mval : board -> score) acts :
  (forall a, In a acts ->
     result b a = Val (move b a) /\
     sound (child (move b a)) (mval (move b a))) ->
  forall v best alpha beta s,
    slt alpha beta -> sle beta v -> slt NegInf v ->
    exists v' best' s',
      min_loop child b acts v best alpha beta s = Val ((v', best'), s') /\
      sle v' v /\ slt NegInf v' /\ (acts <> [] -> slt v' PosInf) /\
      (slt v' beta -> exists a, In a acts /\ sle (mval (move b a)) v') /\
      (slt alpha v' -> forall a, In a acts -> sle v' (mval (move b a))) /\
      (v' = v -> best' = best) /\
      (slt v' v ->
       exists a, best' = Some a /\ In a acts /\
                 (slt alpha v' -> slt v' beta -> mval (move b a) = v')).
Proof.
  induction acts as [|a rest IH]; intros Hch v best alpha beta s Hab Hbv Hv.
  - exists v, best, s. repeat split; trivial.
    + apply sle_refl.
    + intros H; now elim H.
    + intros H. exfalso. clear - H Hbv. score_order.
    + intros _ a [].
    + intros H. exfalso. clear - H. score_order.
  - destruct (Hch a (or_introl eq_refl)) as [Hres Hsound].
    destruct (Hsound alpha beta s Hab) as (z & a' & s1 & Hchild & Hw).
    erewrite min_loop_cons; [|exact Hres|exact Hchild]. cbv zeta.
    remember (mval (move b a)) as m0 eqn:Hm0.
    set (v1 := if score_ltb (Fin z) v then Fin z else v).
    set (best1 := if score_ltb (Fin z) v then Some a else best).
    assert (Hv1 : sle v1 v /\ slt NegInf v1 /\ slt v1 PosInf /\ sle v1 (Fin z))
      by (subst v1; clear - Hv; destruct (score_ltb (Fin z) v) eqn:E;
          repeat split; score_order).
    destruct Hv1 as (Hvv1 & Hv1fin & Hv1pos & Hzv1).
    assert (Hup : (v1 = Fin z /\ best1 = Some a /\ slt v1 v)
                  \/ (v1 = v /\ best1 = best))
      by (subst v1 best1; destruct (score_ltb (Fin z) v) eqn:E; auto).
    clearbody v1 best1.
    destruct (score_leb (py_min beta v1) alpha) eqn:Hbrk.
    + (* break *)
      exists v1, best1, s1. repeat split; trivial.
      * intros Hvb. exists a. split; [left; reflexivity|]. rewrite <- Hm0.
        destruct Hup as [(-> & _ & _) | (-> & _)];
          [apply Hw; assumption | exfalso; clear - Hvb Hbv; score_order].
      * intros Hav. exfalso. clear - Hav Hbrk Hab. score_order.
      * intros ->. destruct Hup as [(_ & _ & Hlt) | (_ & ->)]; trivial.
        exfalso. clear - Hlt. score_order.
      * intros Hlt. destruct Hup as [(-> & -> & _) | (-> & _)].
        -- exists a. repeat split; [left; reflexivity|].
           intros Hav _. exfalso. clear - Hav Hbrk Hab. score_order.
        -- exfalso. clear - Hlt. score_order.
    + (* next action *)
      assert (Hab1 : slt alpha (py_min beta v1)) by (clear - Hbrk; score_order).
      assert (Hbv1 : sle (py_min beta v1) v1) by (clear; score_order).
      destruct (IH (fun a0 H => Hch a0 (or_intror H)) v1 best1 alpha _ s1 Hab1 Hbv1 Hv1fin)
        as (v' & best' & s' & Hrun & Hle & Hfin & _ & Hupp & Hlow & Hsame & Hbest).
      exists v', best', s'. repeat split; trivial.
      * clear - Hvv1 Hle. score_order.
      * intros _. clear - Hv1pos Hle. score_order.
      * intros Hvb. destruct (score_ltb v' (py_min beta v1)) eqn:E.
        -- destruct (Hupp E) as (a0 & Hin & Hs). exists a0. split; [right|]; trivial.
        -- exists a. split; [left; reflexivity|]. rewrite <- Hm0.
           destruct Hw as [_ Hw2].
           destruct Hup as [(Hz & _ & Hlt) | (Hz & _)].
           ++ assert (Hz' : slt (Fin z) beta)
                by (clear - Hz E Hvb Hle; subst v1; score_order).
              specialize (Hw2 Hz'). clear - Hw2 Hz E Hvb Hle. subst v1. score_order.
           ++ exfalso. clear - Hz E Hvb Hle Hbv. subst v1. score_order.
      * intros Hav a0 [<- | Hin]; [|apply Hlow; assumption].
        rewrite <- Hm0. destruct Hw as [Hw1 _].
        assert (Hz' : slt alpha (Fin z)) by (clear - Hav Hle Hzv1; score_order).
        specialize (Hw1 Hz'). clear - Hw1 Hle Hzv1. score_order.
      * intros ->. destruct Hup as [(_ & _ & Hlt) | (Hz & ->)].
        -- exfalso. clear - Hlt Hle. score_order.
        -- apply Hsame. symmetry. exact Hz.
      * intros Hlt. destruct (score_ltb v' v1) eqn:E.
        -- destruct (Hbest E) as (a0 & Hb & Hin & Hval).
           exists a0. repeat split; [assumption | right; assumption |].
           intros Hav Hvb. apply Hval; trivial. clear - Hvb E. score_order.
        -- assert (Heq : v' = v1) by (apply sle_antisym; [exact Hle | exact E]).
           subst v'. rewrite (Hsame eq_refl).
           destruct Hup as [(Hz & -> & _) | (Hz & _)].
           ++ exists a. repeat split; [left; reflexivity|].
              intros Hav Hvb. rewrite <- Hm0. subst v1. destruct Hw as [Hw1 Hw2].
              apply sle_antisym; [apply Hw2 | apply Hw1]; assumption.
           ++ exfalso. clear - Hz Hlt. subst v1. score_order.
Qed.

Lemma shuffled_In s l a : In a (fst (shuffle s l)) <-> In a l.
Proof.
  split; apply Permutation_in; [|apply Permutation_sym]; apply shuffle_perm.
Qed.

Lemma shuffled_nonempty s l : l <> [] -> fst (shuffle s l) <> [].
Proof.
  intros Hl Hnil. apply Hl. apply Permutation_nil.
  rewrite <- Hnil. apply shuffle_perm.
Qed.

Lemma base_case_run b s :
  wf_board b -> base_case (rng:=rng) b s = Val ((Fin (utility_of b), None), s).
Proof.
  intros Hwf. unfold base_case, sbind, lift, sret.
  rewrite (proj1 (utility_total Hwf)). reflexivity.
Qed.

Lemma maxValue_at_terminal d b alpha beta s :
  wf_board b -> is_terminal b = true ->
  maxValue_at shuffle d b alpha beta s = Val ((Fin (utility_of b), None), s).
Proof.
  intros Hwf Ht. destruct d; simpl; [apply base_case_run, Hwf|].
  destruct (terminal_total Hwf) as (t & Hterm & Htr). rewrite Ht in Htr.
  unfold sbind at 1, lift. rewrite Hterm, Htr. apply base_case_run, Hwf.
Qed.

Lemma minValue_at_terminal d b alpha beta s :
  wf_board b -> is_terminal b = true ->
  minValue_at shuffle d b alpha beta s = Val ((Fin (utility_of b), None), s).
Proof.
  intros Hwf Ht. destruct d; simpl; [apply base_case_run, Hwf|].
  destruct (terminal_total Hwf) as (t & Hterm & Htr). rewrite Ht in Htr.
  unfold sbind at 1, lift. rewrite Hterm, Htr. apply base_case_run, Hwf.
Qed.

Lemma maxValue_at_step d b alpha beta s :
  wf_board b -> is_terminal b = false ->
  maxValue_at shuffle (S d) b alpha beta s =
  max_loop (minValue_at shuffle d) b (fst (shuffle s (actions b)))
    NegInf None alpha beta (snd (shuffle s (actions b))).
Proof.
  intros Hwf Ht. simpl.
  destruct (terminal_total Hwf) as (t & Hterm & Htr). rewrite Ht in Htr.
  unfold sbind, lift, random_shuffle. rewrite Hterm, Htr.
  destruct (shuffle s (actions b)); reflexivity.
Qed.

Lemma minValue_at_step d b alpha beta s :
  wf_board b -> is_terminal b = false ->
  minValue_at shuffle (S d) b alpha beta s =
  min_loop (maxValue_at shuffle d) b (fst (shuffle s (actions b)))
    PosInf None alpha beta (snd (shuffle s (actions b))).
Proof.
  intros Hwf Ht. simpl.
  destruct (terminal_total Hwf) as (t & Hterm & Htr). rewrite Ht in Htr.
  unfold sbind, lift, random_shuffle. rewrite Hterm, Htr.
  destruct (shuffle s (actions b)); reflexivity.
Qed.

(** A maximizing node above sound minimizing children. *)
Lemma max_node d b :
  wf_board b -> is_terminal b = false ->
  (forall b', wf_board b' ->
     sound (minValue_at shuffle d b') (alt_value false d b')) ->
  forall alpha beta s,
    slt alpha beta ->
    exists z a s',
      maxValue_at shuffle (S d) b alpha beta s = Val ((Fin z, Some a), s') /\
      within (alt_value true (S d) b) alpha beta (Fin z) /\
      In a (actions b) /\
      (slt alpha (Fin z) -> slt (Fin z) beta ->
       alt_value false d (move b a) = Fin z).
Proof.
  intros Hwf Ht IH alpha beta s Hab.
  rewrite (maxValue_at_step d alpha beta s Hwf Ht).
  set (acts := fst (shuffle s (actions b))).
  destruct (@max_loop_sound (minValue_at shuffle d) b (alt_value false d) acts)
    with (v := NegInf) (best := @None action) (alpha := alpha) (beta := beta)
         (s := snd (shuffle s (actions b)))
    as (v' & best' & s' & Hrun & _ & Hfin & Hneg & Hlow & Hupp & _ & Hbest).
  - intros a Ha. apply shuffled_In in Ha.
    destruct (legal_move a Hwf Ha) as (Hres & Hwf' & _). split; [exact Hres|].
    apply IH, Hwf'.
  - exact Hab.
  - clear. score_order.
  - reflexivity.
  - specialize (Hneg (shuffled_nonempty s (not_terminal_actions Hwf Ht))).
    assert (Hz : exists z, v' = Fin z)
      by (clear - Hfin Hneg; destruct v'; [score_order | eauto | score_order]).
    destruct Hz as [z ->].
    destruct (Hbest Hneg) as (a & -> & Ha & Hval).
    exists z, a, s'. split; [exact Hrun|]. split; [|split].
    + simpl alt_value. rewrite Ht. split.
      * intros H. destruct (Hlow H) as (a0 & Ha0 & Hle).
        eapply sle_trans; [exact Hle|]. apply maximum_ge.
        apply shuffled_In in Ha0.
        apply (in_map (fun a1 => alt_value false d (move b a1))), Ha0.
      * intros H. apply maximum_le. intros x Hx.
        apply in_map_iff in Hx. destruct Hx as (a0 & <- & Ha0).
        apply (Hupp H). apply shuffled_In, Ha0.
    + apply shuffled_In in Ha. exact Ha.
    + exact Hval.
Qed.

(** A minimizing node above sound maximizing children. *)
Lemma min_node d b :
  wf_board b -> is_terminal b = false ->
  (forall b', wf_board b' ->
     sound (maxValue_at shuffle d b') (alt_value true d b')) ->
  forall alpha beta s,
    slt alpha beta ->
    exists z a s',
      minValue_at shuffle (S d) b alpha beta s = Val ((Fin z, Some a), s') /\
      within (alt_value false (S d) b) alpha beta (Fin z) /\
      In a (actions b) /\
      (slt alpha (Fin z) -> slt (Fin z) beta ->
       alt_value true d (move b a) = Fin z).
Proof.
  intros Hwf Ht IH alpha beta s Hab.
  rewrite (minValue_at_step d alpha beta s Hwf Ht).
  set (acts := fst (shuffle s (actions b))).
  destruct (@min_loop_sound (maxValue_at shuffle d) b (alt_value true d) acts)
    with (v := PosInf) (best := @None action) (alpha := alpha) (beta := beta)
         (s := snd (shuffle s (actions b)))
    as (v' & best' & s' & Hrun & _ & Hfin & Hpos & Hupp & Hlow & _ & Hbest).
  - intros a Ha. apply shuffled_In in Ha.
    destruct (legal_move a Hwf Ha) as (Hres & Hwf' & _). split; [exact Hres|].
    apply IH, Hwf'.
  - exact Hab.
  - clear. score_order.
  - reflexivity.
  - specialize (Hpos (shuffled_nonempty s (not_terminal_actions Hwf Ht))).
    assert (Hz : exists z, v' = Fin z)
      by (clear - Hfin Hpos; destruct v'; [score_order | eauto | score_order]).
    destruct Hz as [z ->].
    destruct (Hbest Hpos) as (a & -> & Ha & Hval).
    exists z, a, s'. split; [exact Hrun|]. split; [|split].
    + simpl alt_value. rewrite Ht. split.
      * intros H. apply minimum_ge. intros x Hx.
        apply in_map_iff in Hx. destruct Hx as (a0 & <- & Ha0).
        apply (Hlow H). apply shuffled_In, Ha0.
      * intros H. destruct (Hupp H) as (a0 & Ha0 & Hle).
        eapply sle_trans; [|exact Hle]. apply minimum_le.
        apply shuffled_In in Ha0.
        apply (in_map (fun a1 => alt_value true d (move b a1))), Ha0.
    + apply shuffled_In in Ha. exact Ha.
    + exact Hval.
Qed.

Lemma within_exact m alpha beta : within m alpha beta m.
Proof. split; intros _; apply sle_refl. Qed.

(** Alpha-beta search is sound at every depth, on every well-formed
    board and for every window. *)
Lemma alphabeta_sound d :
  forall b, wf_board b ->
    sound (maxValue_at shuffle d b) (alt_value true d b) /\
    sound (minValue_at shuffle d b) (alt_value false d b).
Proof.
  induction d as [|d IH]; intros b Hwf.
  - split; intros alpha beta s _; exists (utility_of b), None, s;
      (split; [apply base_case_run, Hwf | apply within_exact]).
  - destruct (is_terminal b) eqn:Ht.
    + split; intros alpha beta s _; exists (utility_of b), None, s; simpl alt_value;
        rewrite Ht;
        (split; [first [apply maxValue_at_terminal | apply minValue_at_terminal];
                 assumption
                | apply within_exact]).
    + split; intros alpha beta s Hab.
      * destruct (max_node d Hwf Ht (fun b' H => proj2 (IH b' H)) s Hab)
          as (z & a & s' & Hrun & Hw & _).
        exists z, (Some a), s'. auto.
      * destruct (min_node d Hwf Ht (fun b' H => proj1 (IH b' H)) s Hab)
          as (z & a & s' & Hrun & Hw & _).
        exists z, (Some a), s'. auto.
Qed.

Lemma within_full m z : within m NegInf PosInf (Fin z) -> m = Fin z.
Proof.
  intros [H1 H2]. apply sle_antisym; [apply H2 | apply H1]; reflexivity.
Qed.

(** ** Pruning disabled: the loops see every child *)

Lemma max_loop_noprune_exact (child : board -> search rng found)
    b (mval : board -> score) acts :
  (forall a, In a acts ->
     result b a = Val (move b a) /\
     exact (child (move b a)) (mval (move b a))) ->
  forall v best s,
    exists v' best' s',
      max_loop_noprune child b acts v best s = Val ((v', best'), s') /\
      sle v v' /\
      (forall a, In a acts -> sle (mval (move b a)) v') /\
      (v' = v \/ exists a, In a acts /\ v' = mval (move b a)).
Proof.
  induction acts as [|a rest IH]; intros Hch v best s.
  - exists v, best, s. repeat split; [apply sle_refl | intros a [] | now left].
  - destruct (Hch a (or_introl eq_refl)) as [Hres Hex].
    destruct (Hex s) as (a' & s1 & Hchild).
    simpl. unfold sbind at 1, lift. rewrite Hres.
    unfold sbind at 1. rewrite Hchild. simpl fst.
    remember (mval (move b a)) as m0 eqn:Hm0.
    destruct (IH (fun a0 H => Hch a0 (or_intror H))
                (if score_ltb v m0 then m0 else v)
                (if score_ltb v m0 then Some a else best) s1)
      as (v' & best' & s' & Hrun & Hle & Hall & Hin).
    exists v', best', s'. split; [exact Hrun|]. repeat split.
    + clear - Hle. destruct (score_ltb v m0) eqn:E; score_order.
    + intros a0 [<- | Ha0]; [|apply Hall, Ha0]. rewrite <- Hm0.
      clear - Hle. destruct (score_ltb v m0) eqn:E; score_order.
    + destruct Hin as [-> | (a0 & Ha0 & ->)].
      * destruct (score_ltb v m0); [right; exists a; split; [now left | exact Hm0]
                                   | now left].
      * right. exists a0. split; [now right | reflexivity].
Qed.

Lemma min_loop_noprune_exact (child : board -> search rng found)
    b (mval : board -> score) acts :
  (forall a, In a acts ->
     result b a = Val (move b a) /\
     exact (child (move b a)) (mval (move b a))) ->
  forall v best s,
    exists v' best' s',
      min_loop_noprune child b acts v best s = Val ((v', best'), s') /\
      sle v' v /\
      (forall a, In a acts -> sle v' (mval (move b a))) /\
      (v' = v \/ exists a, In a acts /\ v' = mval (move b a)).
Proof.
  induction acts as [|a rest IH]; intros Hch v best s.
  - exists v, best, s. repeat split; [apply sle_refl | intros a [] | now left].
  - destruct (Hch a (or_introl eq_refl)) as [Hres Hex].
    destruct (Hex s) as (a' & s1 & Hchild).
    simpl. unfold sbind at 1, lift. rewrite Hres.
    unfold sbind at 1. rewrite Hchild. simpl fst.
    remember (mval (move b a)) as m0 eqn:Hm0.
    destruct (IH (fun a0 H => Hch a0 (or_intror H))
                (if score_ltb m0 v then m0 else v)
                (if score_ltb m0 v then Some a else best) s1)
      as (v' & best' & s' & Hrun & Hle & Hall & Hin).
    exists v', best', s'. split; [exact Hrun|]. repeat split.
    + clear - Hle. destruct (score_ltb m0 v) eqn:E; score_order.
    + intros a0 [<- | Ha0]; [|apply Hall, Ha0]. rewrite <- Hm0.
      clear - Hle. destruct (score_ltb m0 v) eqn:E; score_order.
    + destruct Hin as [-> | (a0 & Ha0 & ->)].
      * destruct (score_ltb m0 v); [right; exists a; split; [now left | exact Hm0]
                                   | now left].
      * right. exists a0. split; [now right | reflexivity].
Qed.

Lemma maxValue_noprune_at_terminal d b s :
  wf_board b -> is_terminal b = true ->
  maxValue_noprune_at shuffle d b s = Val ((Fin (utility_of b), None), s).
Proof.
  intros Hwf Ht. destruct d; simpl; [apply base_case_run, Hwf|].
  destruct (terminal_total Hwf) as (t & Hterm & Htr). rewrite Ht in Htr.
  unfold sbind at 1, lift. rewrite Hterm, Htr. apply base_case_run, Hwf.
Qed.

Lemma minValue_noprune_at_terminal d b s :
  wf_board b -> is_terminal b = true ->
  minValue_noprune_at shuffle d b s = Val ((Fin (utility_of b), None), s).
Proof.
  intros Hwf Ht. destruct d; simpl; [apply base_case_run, Hwf|].
  destruct (terminal_total Hwf) as (t & Hterm & Htr). rewrite Ht in Htr.
  unfold sbind at 1, lift. rewrite Hterm, Htr. apply base_case_run, Hwf.
Qed.

Lemma maxValue_noprune_at_step d b s :
  wf_board b -> is_terminal b = false ->
  maxValue_noprune_at shuffle (S d) b s =
  max_loop_noprune (minValue_noprune_at shuffle d) b
    (fst (shuffle s (actions b))) NegInf None (snd (shuffle s (actions b))).
Proof.
  intros Hwf Ht. simpl.
  destruct (terminal_total Hwf) as (t & Hterm & Htr). rewrite Ht in Htr.
  unfold sbind, lift, random_shuffle. rewrite Hterm, Htr.
  destruct (shuffle s (actions b)); reflexivity.
Qed.

Lemma minValue_noprune_at_step d b s :
  wf_board b -> is_terminal b = false ->
  minValue_noprune_at shuffle (S d) b s =
  min_loop_noprune (maxValue_noprune_at shuffle d) b
    (fst (shuffle s (actions b))) PosInf None (snd (shuffle s (actions b))).
Proof.
  intros Hwf Ht. simpl.
  destruct (terminal_total Hwf) as (t & Hterm & Htr). rewrite Ht in Htr.
  unfold sbind, lift, random_shuffle. rewrite Hterm, Htr.
  destruct (shuffle s (actions b)); reflexivity.
Qed.

(** Without pruning the search returns the alternating value itself. *)
Lemma noprune_exact d :
  forall b, wf_board b ->
    exact (maxValue_noprune_at shuffle d b) (alt_value true d b) /\
    exact (minValue_noprune_at shuffle d b) (alt_value false d b).
Proof.
  induction d as [|d IH]; intros b Hwf.
  - split; intros s; exists None, s; apply base_case_run, Hwf.
  - destruct (is_terminal b) eqn:Ht.
    + split; intros s; exists None, s; simpl alt_value; rewrite Ht;
        [apply maxValue_noprune_at_terminal | apply minValue_noprune_at_terminal];
        assumption.
    + split; intros s.
      * rewrite (maxValue_noprune_at_step d s Hwf Ht).
        destruct (@max_loop_noprune_exact (minValue_noprune_at shuffle d) b
                    (alt_value false d) (fst (shuffle s (actions b))))
          with (v := NegInf) (best := @None action)
               (s := snd (shuffle s (actions b)))
          as (v' & best' & s' & Hrun & _ & Hall & Hin).
        { intros a Ha. apply shuffled_In in Ha.
          destruct (legal_move a Hwf Ha) as (Hres & Hwf' & _).
          split; [exact Hres | apply IH, Hwf']. }
        exists best', s'. rewrite Hrun. do 3 f_equal.
        simpl alt_value. rewrite Ht. apply sle_antisym.
        -- destruct Hin as [-> | (a & Ha & ->)]; [apply sle_neginf|].
           apply maximum_ge. apply shuffled_In in Ha.
           apply (in_map (fun a1 => alt_value false d (move b a1))), Ha.
        -- apply maximum_le. intros x Hx.
           apply in_map_iff in Hx. destruct Hx as (a & <- & Ha).
           apply Hall, shuffled_In, Ha.
      * rewrite (minValue_noprune_at_step d s Hwf Ht).
        destruct (@min_loop_noprune_exact (maxValue_noprune_at shuffle d) b
                    (alt_value true d) (fst (shuffle s (actions b))))
          with (v := PosInf) (best := @None action)
               (s := snd (shuffle s (actions b)))
          as (v' & best' & s' & Hrun & _ & Hall & Hin).
        { intros a Ha. apply shuffled_In in Ha.
          destruct (legal_move a Hwf Ha) as (Hres & Hwf' & _).
          split; [exact Hres | apply IH, Hwf']. }
        exists best', s'. rewrite Hrun. do 3 f_equal.
        simpl alt_value. rewrite Ht. apply sle_antisym.
        -- apply minimum_ge. intros x Hx.
           apply in_map_iff in Hx. destruct Hx as (a & <- & Ha).
           apply Hall, shuffled_In, Ha.
        -- destruct Hin as [-> | (a & Ha & ->)]; [apply sle_posinf|].
           apply minimum_le. apply shuffled_In in Ha.
           apply (in_map (fun a1 => alt_value true d (move b a1))), Ha.
Qed.

(** ** The entry point *)

Lemma accuracy_depth :
  Z.to_nat (ACCURACY + 1) = S (Z.to_nat ACCURACY) /\ (9 < Z.to_nat ACCURACY)%nat.
Proof. unfold ACCURACY. lia. Qed.

Lemma initial_not_terminal : is_terminal initial_state = false.
Proof. reflexivity. Qed.

Lemma minimax_dispatch b s :
  board_eqb b initial_state = false ->
  minimax shuffle b s =
  match (if count b =? 0 then maxValue_at shuffle else minValue_at shuffle)
          (S (Z.to_nat ACCURACY)) b NegInf PosInf s with
  | Val (r, s') => Val (snd r, s')
  | Raise e => Raise e
  end.
Proof.
  intros Hne. unfold minimax, player. rewrite Hne.
  destruct (count b =? 0); unfold maxValue, minValue, sbind, sret;
    rewrite (proj1 accuracy_depth); reflexivity.
Qed.

(** On a terminal board the search has no action to return. *)
Lemma minimax_terminal b s :
  wf_board b -> is_terminal b = true -> minimax shuffle b s = Val (None, s).
Proof.
  intros Hwf Ht.
  assert (Hne : board_eqb b initial_state = false).
  { destruct (board_eqb b initial_state) eqn:E; trivial.
    apply board_eqb_eq in E. subst b. discriminate Ht. }
  rewrite minimax_dispatch by exact Hne.
  destruct (count b =? 0);
    [rewrite maxValue_at_terminal | rewrite minValue_at_terminal]; trivial.
Qed.

(** Away from the initial board, on a board where X has moved as often
    as O or once more, the search returns a legal action that keeps
    the minimax value. *)
Lemma minimax_optimal b s :
  wf_board b -> count b = 0 \/ count b = 1 ->
  is_terminal b = false -> board_eqb b initial_state = false ->
  exists a s',
    minimax shuffle b s = Val (Some a, s') /\
    In a (actions b) /\
    minimax_value (move b a) = minimax_value b.
Proof.
  intros Hwf Hc Ht Hne. rewrite minimax_dispatch by exact Hne.
  destruct accuracy_depth as [_ Hdeep].
  set (d := Z.to_nat ACCURACY) in *. clearbody d.
  pose proof (actions_length Hwf) as Hlen.
  assert (Hfull : slt NegInf PosInf) by reflexivity.
  destruct Hc as [Hc | Hc]; rewrite Hc;
    [change (0 =? 0) with true | change (1 =? 0) with false]; cbv iota.
  - destruct (max_node d Hwf Ht (fun b' H => proj2 (alphabeta_sound d H)) s Hfull)
      as (z & a & s' & Hrun & Hw & Ha & Hval).
    exists a, s'. rewrite Hrun. split; [reflexivity|]. split; [exact Ha|].
    destruct (legal_move a Hwf Ha) as (_ & Hwf' & Hc' & Hlen').
    rewrite Hc in Hc'. simpl in Hc'.
    apply within_full in Hw.
    rewrite (proj1 (alt_value_game (S d) Hwf) Hc) in Hw.
    specialize (Hval eq_refl eq_refl).
    rewrite (proj2 (alt_value_game d Hwf') Hc') in Hval.
    rewrite <- (@game_value_full d (move b a)), <- (@game_value_full (S d) b);
      [congruence | assumption | lia | assumption | lia].
  - destruct (min_node d Hwf Ht (fun b' H => proj1 (alphabeta_sound d H)) s Hfull)
      as (z & a & s' & Hrun & Hw & Ha & Hval).
    exists a, s'. rewrite Hrun. split; [reflexivity|]. split; [exact Ha|].
    destruct (legal_move a Hwf Ha) as (_ & Hwf' & Hc' & Hlen').
    rewrite Hc in Hc'. simpl in Hc'.
    apply within_full in Hw.
    rewrite (proj2 (alt_value_game (S d) Hwf) Hc) in Hw.
    specialize (Hval eq_refl eq_refl).
    rewrite (proj1 (alt_value_game d Hwf') Hc') in Hval.
    rewrite <- (@game_value_full d (move b a)), <- (@game_value_full (S d) b);
      [congruence | assumption | lia | assumption | lia].
Qed.

(** With the full window the search returns the value of the search
    without pruning, whatever the two generator states. *)
Lemma pruning_keeps_value d b s1 s2 :
  wf_board b ->
  (exists v a1 a2 s1' s2',
     maxValue_at shuffle d b NegInf PosInf s1 = Val ((v, a1), s1') /\
     maxValue_noprune_at shuffle d b s2 = Val ((v, a2), s2')) /\
  (exists v a1 a2 s1' s2',
     minValue_at shuffle d b NegInf PosInf s1 = Val ((v, a1), s1') /\
     minValue_noprune_at shuffle d b s2 = Val ((v, a2), s2')).
Proof.
  intros Hwf.
  destruct (alphabeta_sound d Hwf) as [Hmax Hmin].
  destruct (noprune_exact d Hwf) as [Emax Emin].
  assert (Hfull : slt NegInf PosInf) by reflexivity.
  split.
  - destruct (Hmax NegInf PosInf s1 Hfull) as (z & a1 & s1' & Hrun & Hw).
    destruct (Emax s2) as (a2 & s2' & Hrun').
    apply within_full in Hw. rewrite Hw in Hrun'. eauto 8.
  - destruct (Hmin NegInf PosInf s1 Hfull) as (z & a1 & s1' & Hrun & Hw).
    destruct (Emin s2) as (a2 & s2' & Hrun').
    apply within_full in Hw. rewrite Hw in Hrun'. eauto 8.
Qed.

End AlphaBeta.

(* ================================================================== *)
(** * The actions chosen with and without pruning *)

Section Choice.

Variable rng : Type.
Variable shuffle : rng -> list action -> list action * rng.
Hypothesis shuffle_perm : forall s l, Permutation (fst (shuffle s l)) l.

(** Without pruning the maximizer's loop keeps, beside the running best
    value, an action whose child has exactly that value. *)
Lemma max_loop_noprune_best (child : board -> search rng found)
    b (mval : board -> score) acts :
  (forall a, In a acts ->
     result b a = Val (move b a) /\
     exact (child (move b a)) (mval (move b a))) ->
  forall v best s,
    exists v' best' s',
      max_loop_noprune child b acts v best s = Val ((v', best'), s') /\
      ((v' = v /\ best' = best) \/
       exists a, In a acts /\ best' = Some a /\ v' = mval (move b a)).
Proof.
  induction acts as [|a rest IH]; intros Hch v best s.
  - exists v, best, s. split; [reflexivity | left; auto].
  - destruct (Hch a (or_introl eq_refl)) as [Hres Hex].
    destruct (Hex s) as (a' & s1 & Hchild).
    simpl. unfold sbind at 1, lift. rewrite Hres.
    unfold sbind at 1. rewrite Hchild. simpl fst.
    remember (mval (move b a)) as m0 eqn:Hm0.
    destruct (IH (fun a0 H => Hch a0 (or_intror H))
                (if score_ltb v m0 then m0 else v)
                (if score_ltb v m0 then Some a else best) s1)
      as (v' & best' & s' & Hrun & Hpick).
    exists v', best', s'. split; [exact Hrun|].
    destruct Hpick as [[-> ->] | (a0 & Ha0 & -> & ->)].
    + destruct (score_ltb v m0).
      * right. exists a. split; [now left | split; [reflexivity | exact Hm0]].
      * left. auto.
    + right. exists a0. split; [now right | auto].
Qed.

Lemma min_loop_noprune_best (child : board -> search rng found)
    b (mval : board -> score) acts :
  (forall a, In a acts ->
     result b a = Val (move b a) /\
     exact (child (move b a)) (mval (move b a))) ->
  forall v best s,
    exists v' best' s',
      min_loop_noprune child b acts v best s = Val ((v', best'), s') /\
      ((v' = v /\ best' = best) \/
       exists a, In a acts /\ best' = Some a /\ v' = mval (move b a)).
Proof.
  induction acts as [|a rest IH]; intros Hch v best s.
  - exists v, best, s. split; [reflexivity | left; auto].
  - destruct (Hch a (or_introl eq_refl)) as [Hres Hex].
    destruct (Hex s) as (a' & s1 & Hchild).
    simpl. unfold sbind at 1, lift. rewrite Hres.
    unfold sbind at 1. rewrite Hchild. simpl fst.
    remember (mval (move b a)) as m0 eqn:Hm0.
    destruct (IH (fun a0 H => Hch a0 (or_intror H))
                (if score_ltb m0 v then m0 else v)
                (if score_ltb m0 v then Some a else best) s1)
      as (v' & best' & s' & Hrun & Hpick).
    exists v', best', s'. split; [exact Hrun|].
    destruct Hpick as [[-> ->] | (a0 & Ha0 & -> & ->)].
    + destruct (score_ltb m0 v).
      * right. exists a. split; [now left | split; [reflexivity | exact Hm0]].
      * left. auto.
    + right. exists a0. split; [now right | auto].
Qed.

(** The action each search returns beside its value, at [d = depth + 1]. *)
Let picks (child_maximizes : bool) (d : nat) (b : board) (v : score)
    (r : option action) : Prop :=
  match r with
  | None => d = 0%nat \/ is_terminal b = true
  | Some a =>
      exists d', d = S d' /\ is_terminal b = false /\ In a (actions b) /\
                 alt_value child_maximizes d' (move b a) = v
  end.

Lemma maxValue_at_picks d b s :
  wf_board b ->
  exists a s',
    maxValue_at shuffle d b NegInf PosInf s
    = Val ((alt_value true d b, a), s') /\
    picks false d b (alt_value true d b) a.
Proof.
  intros Hwf. destruct d as [|d].
  - exists None, s. split; [apply base_case_run, Hwf | left; reflexivity].
  - destruct (is_terminal b) eqn:Ht.
    + exists None, s. simpl alt_value. rewrite Ht.
      split; [apply maxValue_at_terminal; assumption | right; exact Ht].
    + destruct (@max_node rng shuffle shuffle_perm d b Hwf Ht
                  (fun b' H => proj2 (@alphabeta_sound rng shuffle shuffle_perm d b' H))
                  NegInf PosInf s eq_refl)
        as (z & a & s' & Hrun & Hw & Ha & Hval).
      apply within_full in Hw. exists (Some a), s'. rewrite Hw.
      split; [exact Hrun|]. exists d.
      repeat split; trivial. apply Hval; reflexivity.
Qed.

Lemma minValue_at_picks d b s :
  wf_board b ->
  exists a s',
    minValue_at shuffle d b NegInf PosInf s
    = Val ((alt_value false d b, a), s') /\
    picks true d b (alt_value false d b) a.
Proof.
  intros Hwf. destruct d as [|d].
  - exists None, s. split; [apply base_case_run, Hwf | left; reflexivity].
  - destruct (is_terminal b) eqn:Ht.
    + exists None, s. simpl alt_value. rewrite Ht.
      split; [apply minValue_at_terminal; assumption | right; exact Ht].
    + destruct (@min_node rng shuffle shuffle_perm d b Hwf Ht
                  (fun b' H => proj1 (@alphabeta_sound rng shuffle shuffle_perm d b' H))
                  NegInf PosInf s eq_refl)
        as (z & a & s' & Hrun & Hw & Ha & Hval).
      apply within_full in Hw. exists (Some a), s'. rewrite Hw.
      split; [exact Hrun|]. exists d.
      repeat split; trivial. apply Hval; reflexivity.
Qed.

Lemma maxValue_noprune_at_picks d b s :
  wf_board b ->
  exists a s',
    maxValue_noprune_at shuffle d b s = Val ((alt_value true d b, a), s') /\
    picks false d b (alt_value true d b) a.
Proof.
  intros Hwf.
  destruct (proj1 (@noprune_exact rng shuffle shuffle_perm d b Hwf) s)
    as (r & s' & Hrun).
  exists r, s'. split; [exact Hrun|].
  destruct d as [|d].
  - simpl in Hrun. rewrite base_case_run in Hrun by assumption.
    injection Hrun as <-. left. reflexivity.
  - destruct (is_terminal b) eqn:Ht.
    + rewrite maxValue_noprune_at_terminal in Hrun by assumption.
      injection Hrun as _ <- _. right. exact Ht.
    + rewrite maxValue_noprune_at_step in Hrun by assumption.
      destruct (@max_loop_noprune_best (minValue_noprune_at shuffle d) b
                  (alt_value false d) (fst (shuffle s (actions b))))
        with (v := NegInf) (best := @None action)
             (s := snd (shuffle s (actions b)))
        as (v' & best' & s'' & Hrun' & Hpick).
      { intros a Ha. apply (@shuffled_In rng shuffle shuffle_perm) in Ha.
        destruct (legal_move a Hwf Ha) as (Hres & Hwf' & _).
        split; [exact Hres |].
        apply (@noprune_exact rng shuffle shuffle_perm d _ Hwf'). }
      rewrite Hrun in Hrun'. injection Hrun' as <- <- _.
      destruct Hpick as [[Hinf _] | (a & Ha & -> & Hv)].
      * destruct (alt_value_bounded true (S d) Hwf) as (z & Hz & _).
        simpl in Hz, Hinf. congruence.
      * exists d. apply (@shuffled_In rng shuffle shuffle_perm) in Ha.
        repeat split; trivial. symmetry. exact Hv.
Qed.

Lemma minValue_noprune_at_picks d b s :
  wf_board b ->
  exists a s',
    minValue_noprune_at shuffle d b s = Val ((alt_value false d b, a), s') /\
    picks true d b (alt_value false d b) a.
Proof.
  intros Hwf.
  destruct (proj2 (@noprune_exact rng shuffle shuffle_perm d b Hwf) s)
    as (r & s' & Hrun).
  exists r, s'. split; [exact Hrun|].
  destruct d as [|d].
  - simpl in Hrun. rewrite base_case_run in Hrun by assumption.
    injection Hrun as <-. left. reflexivity.
  - destruct (is_terminal b) eqn:Ht.
    + rewrite minValue_noprune_at_terminal in Hrun by assumption.
      injection Hrun as _ <- _. right. exact Ht.
    + rewrite minValue_noprune_at_step in Hrun by assumption.
      destruct (@min_loop_noprune_best (maxValue_noprune_at shuffle d) b
                  (alt_value true d) (fst (shuffle s (actions b))))
        with (v := PosInf) (best := @None action)
             (s := snd (shuffle s (actions b)))
        as (v' & best' & s'' & Hrun' & Hpick).
      { intros a Ha. apply (@shuffled_In rng shuffle shuffle_perm) in Ha.
        destruct (legal_move a Hwf Ha) as (Hres & Hwf' & _).
        split; [exact Hres |].
        apply (@noprune_exact rng shuffle shuffle_perm d _ Hwf'). }
      rewrite Hrun in Hrun'. injection Hrun' as <- <- _.
      destruct Hpick as [[Hinf _] | (a & Ha & -> & Hv)].
      * destruct (alt_value_bounded false (S d) Hwf) as (z & Hz & _).
        simpl in Hz, Hinf. congruence.
      * exists d. apply (@shuffled_In rng shuffle shuffle_perm) in Ha.
        repeat split; trivial. symmetry. exact Hv.
Qed.

(** At budget [depth] the action picked is an equal-value choice. *)
Lemma picks_choice mx b depth v r :
  picks mx (Z.to_nat (depth + 1)) b v r -> equal_value_choice mx b depth v r.
Proof.
  destruct r as [a|]; simpl.
  - intros (d' & Hd & Ht & Ha & Hv).
    assert (Hd' : d' = Z.to_nat depth) by lia. subst d'.
    repeat split; trivial; lia.
  - intros [Hd | Ht]; [left; lia | right; exact Ht].
Qed.

End Choice.

(* ================================================================== *)
(** * The procedures in terms of the depth budget *)

Section DepthBudget.

Variable rng : Type.
Variable shuffle : rng -> list action -> list action * rng.

(** [maxValue] as the source writes it, on [depth]. *)
Lemma maxValue_equation b depth alpha beta :
  maxValue shuffle b depth alpha beta =
  if depth <? 0 then base_case b
  else
    sbind (lift (terminal b)) (fun t =>
      if truthy t then base_case b
      else
        sbind (random_shuffle shuffle (actions b)) (fun available_actions =>
          max_loop (fun b' => minValue shuffle b' (depth - 1))
            b available_actions NegInf None alpha beta)).
Proof.
  unfold maxValue. destruct (Z.ltb_spec depth 0) as [Hneg | Hpos].
  - replace (Z.to_nat (depth + 1)) with 0%nat by lia. reflexivity.
  - unfold minValue.
    replace (Z.to_nat (depth + 1)) with (S (Z.to_nat (depth - 1 + 1))) by lia.
    reflexivity.
Qed.

Lemma minValue_equation b depth alpha beta :
  minValue shuffle b depth alpha beta =
  if depth <? 0 then base_case b
  else
    sbind (lift (terminal b)) (fun t =>
      if truthy t then base_case b
      else
        sbind (random_shuffle shuffle (actions b)) (fun available_actions =>
          min_loop (fun b' => maxValue shuffle b' (depth - 1))
            b available_actions PosInf None alpha beta)).
Proof.
  unfold minValue. destruct (Z.ltb_spec depth 0) as [Hneg | Hpos].
  - replace (Z.to_nat (depth + 1)) with 0%nat by lia. reflexivity.
  - unfold maxValue.
    replace (Z.to_nat (depth + 1)) with (S (Z.to_nat (depth - 1 + 1))) by lia.
    reflexivity.
Qed.

End DepthBudget.

(* ================================================================== *)
(** * Values found by running the search *)

Lemma keep_order_perm : forall s l, Permutation (fst (keep_order s l)) l.
Proof. intros s l. apply Permutation_refl. Qed.

Lemma reverse_order_perm : forall s l, Permutation (fst (reverse_order s l)) l.
Proof. intros s l. apply Permutation_sym, Permutation_rev. Qed.

(** The verified search computes minimax values. *)
Lemma minimax_value_by_max d b z a s' :
  wf_board b -> count b = 0 -> (length (actions b) < d)%nat ->
  maxValue_at keep_order d b NegInf PosInf tt = Val ((Fin z, a), s') ->
  minimax_value b = Fin z.
Proof.
  intros Hwf Hc Hd Hrun.
  destruct (proj1 (@alphabeta_sound unit keep_order keep_order_perm d b Hwf)
              NegInf PosInf tt eq_refl)
    as (z' & a' & s'' & Hrun' & Hw).
  rewrite Hrun in Hrun'. injection Hrun' as <- _ _.
  apply within_full in Hw.
  rewrite <- (game_value_full Hwf Hd), <- (proj1 (alt_value_game d Hwf) Hc).
  exact Hw.
Qed.

Lemma minimax_value_by_min d b z a s' :
  wf_board b -> count b = 1 -> (length (actions b) < d)%nat ->
  minValue_at keep_order d b NegInf PosInf tt = Val ((Fin z, a), s') ->
  minimax_value b = Fin z.
Proof.
  intros Hwf Hc Hd Hrun.
  destruct (proj2 (@alphabeta_sound unit keep_order keep_order_perm d b Hwf)
              NegInf PosInf tt eq_refl)
    as (z' & a' & s'' & Hrun' & Hw).
  rewrite Hrun in Hrun'. injection Hrun' as <- _ _.
  apply within_full in Hw.
  rewrite <- (game_value_full Hwf Hd), <- (proj2 (alt_value_game d Hwf) Hc).
  exact Hw.
Qed.

(** Tic-tac-toe is a draw, and stays one after the corner opening. *)
Lemma initial_value : minimax_value initial_state = Fin 0.
Proof.
  eapply (@minimax_value_by_max 10 initial_state).
  - apply wf_boardb_spec. reflexivity.
  - reflexivity.
  - apply Nat.ltb_lt. reflexivity.
  - vm_compute. reflexivity.
Qed.

Lemma corner_value : minimax_value (move initial_state (0, 0)) = Fin 0.
Proof.
  eapply (@minimax_value_by_min 9 (move initial_state (0, 0))).
  - apply wf_boardb_spec. reflexivity.
  - reflexivity.
  - apply Nat.ltb_lt. reflexivity.
  - vm_compute. reflexivity.
Qed.

(* ================================================================== *)
(** * Reaching the example boards *)

Lemma action_eqb_eq a a' : action_eqb a a' = true <-> a = a'.
Proof.
  destruct a as [i j], a' as [i' j']. unfold action_eqb. simpl.
  rewrite andb_true_iff, !Z.eqb_eq. split; [intros [-> ->] | intros [= -> ->]]; auto.
Qed.

Lemma played_reachable moves :
  forall b b', reachable b -> play b moves = Val b' -> reachable b'.
Proof.
  induction moves as [|a rest IH]; simpl; intros b b' Hr Hplay.
  - injection Hplay as <-. exact Hr.
  - destruct (existsb (action_eqb a) (actions b)) eqn:Hin; [|discriminate].
    apply existsb_exists in Hin. destruct Hin as (a0 & Hin & Heq).
    apply action_eqb_eq in Heq. subst a0.
    destruct (result b a) as [b1|] eqn:Hres; [|discriminate]. simpl in Hplay.
    apply (IH b1 b'); [|exact Hplay]. eapply reach_move; eassumption.
Qed.

Lemma after_corner_reachable : reachable after_corner.
Proof. apply (played_reachable [(0, 0)] reach_initial). reflexivity. Qed.

Lemma open_row_reachable : reachable open_row.
Proof.
  apply (played_reachable [(0, 0); (1, 2); (0, 1); (2, 1)] reach_initial).
  reflexivity.
Qed.

Lemma x_won_reachable : reachable x_won.
Proof.
  apply (played_reachable [(0, 0); (1, 0); (0, 1); (1, 1); (0, 2)] reach_initial).
  reflexivity.
Qed.

(* ================================================================== *)
(** * The specification, claim by claim *)

(** C1. On every non-terminal board reachable from the initial state by
    legal moves, and for every way [random.shuffle] may order the
    actions, [minimax] returns an action of [actions board] whose
    full-depth minimax value equals the minimax value of the board. *)
Theorem minimax_returns_optimal_action
    (rng : Type) (shuffle : rng -> list action -> list action * rng) :
  (forall s l, Permutation (fst (shuffle s l)) l) ->
  forall b s,
    reachable b -> is_terminal b = false ->
    exists a s',
      minimax shuffle b s = Val (Some a, s') /\
      In a (actions b) /\
      minimax_value (move b a) = minimax_value b.
Proof.
  intros Hperm b s Hr Ht. destruct (reachable_wf Hr) as [Hwf Hc].
  destruct (board_eqb b initial_state) eqn:E.
  - apply board_eqb_eq in E. subst b. exists (0, 0), s.
    split; [reflexivity|]. split; [simpl; auto|].
    rewrite corner_value, initial_value. reflexivity.
  - apply minimax_optimal; assumption.
Qed.

Lemma minimax_returns_optimal_action_witness :
  exists a s',
    minimax reverse_order open_row tt = Val (Some a, s') /\
    In a (actions open_row) /\
    minimax_value (move open_row a) = minimax_value open_row.
Proof.
  apply (@minimax_returns_optimal_action unit reverse_order).
  - intros s l. apply Permutation_sym, Permutation_rev.
  - apply (played_reachable [(0, 0); (1, 2); (0, 1); (2, 1)] reach_initial).
    reflexivity.
  - reflexivity.
Defined.

(** C2. On every reachable board, for every shuffle and generator state
    and at every depth budget, [maxValue] and [minValue] called with
    alpha = -infinity and beta = +infinity return the value that the
    same search returns with pruning disabled, the depth-limited minimax
    value of the board.  The two searches may return different actions,
    but only among equal-value ones: each returns no action exactly in
    the base case, and otherwise an action of [actions board] whose child
    has the value returned. *)
Theorem pruning_preserves_value
    (rng : Type) (shuffle : rng -> list action -> list action * rng) :
  (forall s l, Permutation (fst (shuffle s l)) l) ->
  forall b depth s,
    reachable b ->
    (exists v a1 a2 s1 s2,
       maxValue shuffle b depth NegInf PosInf s = Val ((v, a1), s1) /\
       maxValue_noprune shuffle b depth s = Val ((v, a2), s2) /\
       v = alt_value true (Z.to_nat (depth + 1)) b /\
       equal_value_choice false b depth v a1 /\
       equal_value_choice false b depth v a2) /\
    (exists v a1 a2 s1 s2,
       minValue shuffle b depth NegInf PosInf s = Val ((v, a1), s1) /\
       minValue_noprune shuffle b depth s = Val ((v, a2), s2) /\
       v = alt_value false (Z.to_nat (depth + 1)) b /\
       equal_value_choice true b depth v a1 /\
       equal_value_choice true b depth v a2).
Proof.
  intros Hperm b depth s Hr. destruct (reachable_wf Hr) as [Hwf _].
  unfold maxValue, minValue, maxValue_noprune, minValue_noprune.
  split.
  - destruct (@maxValue_at_picks rng shuffle Hperm (Z.to_nat (depth + 1)) b s Hwf)
      as (a1 & s1 & Hrun1 & Hpick1).
    destruct (@maxValue_noprune_at_picks rng shuffle Hperm
                (Z.to_nat (depth + 1)) b s Hwf)
      as (a2 & s2 & Hrun2 & Hpick2).
    exists (alt_value true (Z.to_nat (depth + 1)) b), a1, a2, s1, s2.
    split; [exact Hrun1|]. split; [exact Hrun2|]. split; [reflexivity|].
    split; apply picks_choice; assumption.
  - destruct (@minValue_at_picks rng shuffle Hperm (Z.to_nat (depth + 1)) b s Hwf)
      as (a1 & s1 & Hrun1 & Hpick1).
    destruct (@minValue_noprune_at_picks rng shuffle Hperm
                (Z.to_nat (depth + 1)) b s Hwf)
      as (a2 & s2 & Hrun2 & Hpick2).
    exists (alt_value false (Z.to_nat (depth + 1)) b), a1, a2, s1, s2.
    split; [exact Hrun1|]. split; [exact Hrun2|]. split; [reflexivity|].
    split; apply picks_choice; assumption.
Qed.

Lemma pruning_preserves_value_witness :
  (exists v a1 a2 s1 s2,
     maxValue reverse_order open_row 8 NegInf PosInf tt = Val ((v, a1), s1) /\
     maxValue_noprune reverse_order open_row 8 tt = Val ((v, a2), s2) /\
     v = alt_value true (Z.to_nat (8 + 1)) open_row /\
     equal_value_choice false open_row 8 v a1 /\
     equal_value_choice false open_row 8 v a2) /\
  (exists v a1 a2 s1 s2,
     minValue reverse_order open_row 8 NegInf PosInf tt = Val ((v, a1), s1) /\
     minValue_noprune reverse_order open_row 8 tt = Val ((v, a2), s2) /\
     v = alt_value false (Z.to_nat (8 + 1)) open_row /\
     equal_value_choice true open_row 8 v a1 /\
     equal_value_choice true open_row 8 v a2).
Proof.
  apply (@pruning_preserves_value unit reverse_order).
  - intros s l. apply Permutation_sym, Permutation_rev.
  - apply (played_reachable [(0, 0); (1, 2); (0, 1); (2, 1)] reach_initial).
    reflexivity.
Defined.

(** ** C3: the state transition *)

Lemma getitem_out_of_range {A} (l : list A) i :
  i < - Z.of_nat (length l) \/ Z.of_nat (length l) <= i ->
  getitem l i = Raise IndexError.
Proof.
  intros Hi. unfold getitem.
  destruct (Z.ltb_spec i 0);
    destruct (Z.ltb_spec (i + Z.of_nat (length l)) 0);
    destruct (Z.leb_spec (Z.of_nat (length l)) (i + Z.of_nat (length l)));
    destruct (Z.ltb_spec i 0);
    destruct (Z.leb_spec (Z.of_nat (length l)) i);
    simpl; try reflexivity; lia.
Qed.

Lemma position_in_range a :
  0 <= fst a <= 2 -> 0 <= snd a <= 2 -> position a = a.
Proof.
  destruct a as [i j]. unfold position. simpl. intros Hi Hj.
  rewrite !Z.mod_small by lia. reflexivity.
Qed.

Lemma result_cases b a :
  wf_board b ->
  (~ addressed a /\ result b a = Raise IndexError) \/
  (addressed a /\ cell_at b (position a) <> Val EMPTY /\
   result b a = Raise InvalidAction) \/
  (addressed a /\ cell_at b (position a) = Val EMPTY /\
   exists b', result b a = Val b' /\ set_at b (position a) (player b) b').
Proof.
  intros Hwf. destruct (wf_board_shape Hwf)
    as (c00 & c01 & c02 & c10 & c11 & c12 & c20 & c21 & c22 & ->).
  destruct a as [i j]. unfold addressed, position. simpl fst. simpl snd.
  assert (Hi : i < -3 \/ 2 < i \/ i = -3 \/ i = -2 \/ i = -1
               \/ i = 0 \/ i = 1 \/ i = 2) by lia.
  assert (Hj : j < -3 \/ 2 < j \/ j = -3 \/ j = -2 \/ j = -1
               \/ j = 0 \/ j = 1 \/ j = 2) by lia.
  destruct Hi as [Hi | [Hi | Hi]].
  1, 2: left; split; [lia|]; unfold result, cell_at; simpl fst;
        rewrite getitem_out_of_range by (simpl; lia); reflexivity.
  destruct Hj as [Hj | [Hj | Hj]].
  1, 2: left; split; [lia|]; unfold result, cell_at; simpl fst; simpl snd;
        repeat destruct Hi as [Hi | Hi]; subst i; simpl ebind;
        rewrite getitem_out_of_range by (simpl; lia); reflexivity.
  right.
  repeat destruct Hi as [Hi | Hi]; subst i;
    repeat destruct Hj as [Hj | Hj]; subst j;
    match goal with
    | |- context [result ?b ?a] =>
        unfold result, cell_at; simpl;
        match goal with
        | |- context [cell_eqb ?c EMPTY] => destruct c as [[|]|]; simpl
        end
    end;
    try (left; split; [lia|]; split; [discriminate | reflexivity]);
    right; (split; [lia|]); (split; [reflexivity|]);
    eexists; (split; [reflexivity|]);
    (split; [apply wf_boardb_spec; reflexivity|]);
    intros [r c]; simpl fst; simpl snd; intros Hr Hc;
    assert (Hr' : r = 0 \/ r = 1 \/ r = 2) by lia;
    assert (Hc' : c = 0 \/ c = 1 \/ c = 2) by lia;
    destruct Hr' as [-> | [-> | ->]]; destruct Hc' as [-> | [-> | ->]];
    reflexivity.
Qed.

(** C3, as the code has it.  The coordinates of an action are Python
    indices and [result] checks no range of its own.  On a 3x3 board it
    raises ['Not a valid action!'] exactly when the coordinates lie in
    -3..2 and the cell they address is occupied; it raises [IndexError]
    exactly when a coordinate lies outside -3..2; it returns a board
    exactly when the addressed cell is empty, and that board is
    well formed and differs from the input only in the addressed cell,
    which holds the mark of [player board].  Coordinates in 0..2 address
    the cell (i, j) itself ([position_in_range]); -3..-1 count from the
    end. *)
Theorem result_on_python_indices b a :
  wf_board b ->
  (result b a = Raise InvalidAction <->
   addressed a /\ cell_at b (position a) <> Val EMPTY) /\
  (result b a = Raise IndexError <-> ~ addressed a) /\
  ((exists b', result b a = Val b') <->
   addressed a /\ cell_at b (position a) = Val EMPTY) /\
  (forall b', result b a = Val b' -> set_at b (position a) (player b) b').
Proof.
  intros Hwf.
  destruct (result_cases a Hwf)
    as [(Hna & Hres) | [(Ha & Hocc & Hres) | (Ha & Hemp & b1 & Hres & Hset)]];
    rewrite Hres.
  - split; [|split; [|split]].
    + split; [discriminate | intros [H _]; contradiction].
    + split; trivial.
    + split; [intros [b' H]; discriminate | intros [H _]; contradiction].
    + discriminate.
  - split; [|split; [|split]].
    + split; auto.
    + split; [discriminate | intros H; contradiction].
    + split; [intros [b' H]; discriminate | intros [_ H]; contradiction].
    + discriminate.
  - split; [|split; [|split]].
    + split; [discriminate | intros [_ H]; contradiction].
    + split; [discriminate | intros H; contradiction].
    + split; eauto.
    + intros b' [= <-]. exact Hset.
Qed.

Lemma result_on_python_indices_witness :
  (result open_row (-1, -1) = Raise InvalidAction <->
   addressed (-1, -1) /\ cell_at open_row (position (-1, -1)) <> Val EMPTY) /\
  (result open_row (-1, -1) = Raise IndexError <-> ~ addressed (-1, -1)) /\
  ((exists b', result open_row (-1, -1) = Val b') <->
   addressed (-1, -1) /\ cell_at open_row (position (-1, -1)) = Val EMPTY) /\
  (forall b', result open_row (-1, -1) = Val b' ->
     set_at open_row (position (-1, -1)) (player open_row) b').
Proof.
  apply (@result_on_python_indices open_row (-1, -1)).
  apply wf_boardb_spec. reflexivity.
Defined.

(** The action (-1, -1) is outside 0..2 x 0..2, yet [result] accepts it
    on the initial board and marks the cell (2, 2). *)
Lemma result_accepts_negative_indices :
  ~ raises_unless_empty_in_range initial_state (-1, -1).
Proof.
  intros [_ H].
  assert (Hr : result initial_state (-1, -1) = Raise InvalidAction).
  { apply H. intros (Hi & _). simpl in Hi. lia. }
  vm_compute in Hr. discriminate Hr.
Qed.

(** ** C4: two in a line with the third cell open *)

(** On the reachable board [open_row], with the actions taken in reverse
    order, [minimax] returns (2, 2): a fork that wins two moves later,
    not the completing cell (0, 2). *)
Lemma minimax_prefers_fork :
  ~ returns_completing_cell reverse_order open_row tt.
Proof.
  intros H. destruct (H eq_refl eq_refl) as (a & s' & Hrun & Hc).
  vm_compute in Hrun. injection Hrun as <- _.
  vm_compute in Hc. discriminate Hc.
Qed.

Lemma completion_wins_all : forallb completion_wins all_boards = true.
Proof. vm_compute. reflexivity. Qed.

Lemma completes_in_cells b m c : completes b m c = true -> In c cells.
Proof.
  unfold completes. destruct (holds b c EMPTY); [|discriminate].
  intros H. apply existsb_exists in H. destruct H as (line & Hline & H).
  destruct (existsb (action_eqb c) line) eqn:Hc; [|discriminate].
  apply existsb_exists in Hc. destruct Hc as (q & Hq & Heq).
  apply action_eqb_eq in Heq. subst q.
  simpl in Hline. repeat destruct Hline as [<- | Hline]; try contradiction;
    simpl in Hq; repeat destruct Hq as [<- | Hq]; try contradiction;
    simpl; tauto.
Qed.

Lemma completing_cell_wins b c :
  wf_board b -> count b = 0 -> is_terminal b = false ->
  completes b X c = true ->
  In c (actions b) /\ minimax_value (move b c) = Fin 1.
Proof.
  intros Hwf Hc Ht Hcompl.
  pose proof (all_boards_check _ completion_wins_all Hwf) as Hwin.
  unfold completion_wins in Hwin. rewrite Hc, Ht in Hwin.
  change (0 =? 0) with true in Hwin. cbv iota in Hwin.
  rewrite forallb_forall in Hwin.
  specialize (Hwin c (completes_in_cells _ _ _ Hcompl)). rewrite Hcompl in Hwin.
  apply andb_true_iff in Hwin. destruct Hwin as [Hwin Hu].
  apply andb_true_iff in Hwin. destruct Hwin as [Hin Hterm].
  apply Z.eqb_eq in Hu.
  apply existsb_exists in Hin. destruct Hin as (a & Ha & Heq).
  apply action_eqb_eq in Heq. subst a. split; [exact Ha|].
  unfold minimax_value. simpl. rewrite Hterm, Hu. reflexivity.
Qed.

Lemma open_two_value b :
  wf_board b -> count b = 0 -> is_terminal b = false -> open_two b X = true ->
  minimax_value b = Fin 1.
Proof.
  intros Hwf Hc Ht Hopen.
  apply existsb_exists in Hopen. destruct Hopen as (c & _ & Hcompl).
  destruct (completing_cell_wins c Hwf Hc Ht Hcompl) as [Ha Hval].
  destruct (legal_move c Hwf Ha) as (_ & Hwf' & _ & Hlen).
  assert (Hbound : bounded (minimax_value b))
    by (apply game_value_bounds; [assumption | lia]).
  destruct Hbound as (z & Hz & Hz1).
  assert (Hge : sle (Fin 1) (minimax_value b)).
  { unfold minimax_value. simpl game_value. rewrite Ht.
    unfold player. rewrite Hc. simpl.
    rewrite <- Hval, <- (@game_value_full (length (actions b)) (move b c));
      [|assumption | lia].
    apply maximum_ge.
    apply (in_map (fun a0 => game_value (length (actions b)) (move b a0))), Ha. }
  rewrite Hz in *. f_equal. clear - Hge Hz1. unfold sle in Hge. simpl in Hge.
  apply Z.ltb_ge in Hge. lia.
Qed.

(** C4, as the code has it.  On a non-terminal board where it is X's
    turn and X has two marks in a line whose third cell is empty,
    [minimax] returns, for every shuffle, an action of [actions board]
    after which X wins under best play (minimax value +1).  Every
    completing cell is such an action, and the action returned need not
    be one of them. *)
Theorem minimax_finds_forced_win
    (rng : Type) (shuffle : rng -> list action -> list action * rng) :
  (forall s l, Permutation (fst (shuffle s l)) l) ->
  forall b s,
    wf_board b -> player b = X -> is_terminal b = false ->
    open_two b X = true ->
    (exists a s',
       minimax shuffle b s = Val (Some a, s') /\
       In a (actions b) /\
       minimax_value (move b a) = Fin 1) /\
    (forall c, completes b X c = true ->
       In c (actions b) /\ minimax_value (move b c) = Fin 1).
Proof.
  intros Hperm b s Hwf Hp Ht Hopen.
  apply player_count in Hp. split.
  - assert (Hne : board_eqb b initial_state = false).
    { destruct (board_eqb b initial_state) eqn:E; trivial.
      apply board_eqb_eq in E. subst b. discriminate Hopen. }
    destruct (@minimax_optimal rng shuffle Hperm b s Hwf (or_introl Hp) Ht Hne)
      as (a & s' & Hrun & Ha & Hval).
    exists a, s'. rewrite Hval. auto using open_two_value.
  - intros c Hcompl. apply completing_cell_wins; assumption.
Qed.

Lemma minimax_finds_forced_win_witness :
  (exists a s',
     minimax reverse_order open_row tt = Val (Some a, s') /\
     In a (actions open_row) /\
     minimax_value (move open_row a) = Fin 1) /\
  (forall c, completes open_row X c = true ->
     In c (actions open_row) /\ minimax_value (move open_row c) = Fin 1).
Proof.
  apply (@minimax_finds_forced_win unit reverse_order).
  - intros s l. apply Permutation_sym, Permutation_rev.
  - apply wf_boardb_spec. reflexivity.
  - reflexivity.
  - reflexivity.
  - reflexivity.
Defined.

(** ** C5: the search on a terminal board *)

(** C5. On every terminal board (none is the initial state) and for
    every shuffle, [minimax] returns [None] and no action. *)
Theorem minimax_on_terminal_board
    (rng : Type) (shuffle : rng -> list action -> list action * rng) b s :
  wf_board b -> is_terminal b = true ->
  b <> initial_state /\ minimax shuffle b s = Val (None, s).
Proof.
  intros Hwf Ht. split; [intros ->; discriminate Ht|].
  apply minimax_terminal; assumption.
Qed.

Lemma minimax_on_terminal_board_witness :
  x_won <> initial_state /\ minimax reverse_order x_won tt = Val (None, tt).
Proof.
  apply (@minimax_on_terminal_board unit reverse_order x_won tt).
  - apply wf_boardb_spec. reflexivity.
  - reflexivity.
Defined.

(** ** C6: winner and utility *)

(** C6. On every terminal board [winner] and [utility] agree: the
    winner is X exactly when the utility is 1, O exactly when it is -1,
    and there is no winner exactly when it is 0. *)
Theorem winner_utility_agree b :
  wf_board b -> is_terminal b = true ->
  exists w u,
    winner b = Val w /\ utility b = Val u /\
    (w = Some X <-> u = 1) /\
    (w = Some O <-> u = -1) /\
    (w = None <-> u = 0).
Proof.
  intros Hwf _. destruct (winner_total Hwf) as [w Hw].
  unfold utility. rewrite Hw. simpl.
  destruct w as [[|]|]; eexists; eexists; (split; [reflexivity|]);
    (split; [reflexivity|]); repeat split; intros; (congruence || lia).
Qed.

Lemma winner_utility_agree_witness :
  exists w u,
    winner x_won = Val w /\ utility x_won = Val u /\
    (w = Some X <-> u = 1) /\
    (w = Some O <-> u = -1) /\
    (w = None <-> u = 0).
Proof.
  apply (@winner_utility_agree x_won).
  - apply wf_boardb_spec. reflexivity.
  - reflexivity.
Defined.

(** ** C7: whose turn it is *)

(** With two X and no O on the board it is O's turn before and after
    O's move. *)
Lemma turn_stays_with_O : ~ turn_passes two_x (0, 2).
Proof.
  intros H. destruct H as (b' & Hres & Hp); [simpl; auto|].
  vm_compute in Hres. injection Hres as <-. apply Hp. reflexivity.
Qed.

(** C7, as the code has it.  On every board where X has as many marks
    as O or one more (every reachable board is one), a legal move hands
    the turn to the other player. *)
Theorem turn_passes_when_balanced b a :
  wf_board b -> count b = 0 \/ count b = 1 -> In a (actions b) ->
  exists b', result b a = Val b' /\ player b' <> player b.
Proof.
  intros Hwf Hc Ha. destruct (legal_move a Hwf Ha) as (Hres & _ & Hc' & _).
  exists (move b a). split; [exact Hres|].
  unfold player. rewrite Hc'. destruct Hc as [-> | ->]; simpl; discriminate.
Qed.

Lemma turn_passes_when_balanced_witness :
  exists b', result open_row (0, 2) = Val b' /\ player b' <> player open_row.
Proof.
  apply (@turn_passes_when_balanced open_row (0, 2)).
  - apply wf_boardb_spec. reflexivity.
  - left. reflexivity.
  - simpl. auto.
Defined.

Lemma reachable_balanced b : reachable b -> count b = 0 \/ count b = 1.
Proof. intros Hr. apply reachable_wf, Hr. Qed.

(** ** C8: the terminal test *)

(** [terminal] is truthy exactly when there is a winner or no action. *)
Lemma terminal_truthy b :
  wf_board b ->
  exists t,
    terminal b = Val t /\
    (truthy t = true <-> winner b <> Val None \/ actions b = []).
Proof.
  intros Hwf. destruct (winner_total Hwf) as [w Hw].
  unfold terminal. rewrite Hw. simpl.
  destruct w as [m|]; eexists; (split; [reflexivity|]); simpl.
  - split; [left; discriminate | reflexivity].
  - destruct (actions b) as [|a l].
    + split; auto.
    + split; [discriminate|]. intros [H | H]; [now elim H | discriminate].
Qed.

(** C8, where the code departs from it.  On the reachable board [x_won]
    [terminal] returns the winner's mark, the string ["X"], and not a
    bool. *)
Lemma terminal_returns_the_mark :
  terminal x_won = Val (PyStr X) /\ forall t, terminal x_won <> Val (PyBool t).
Proof. split; [reflexivity | intros t; discriminate]. Qed.

(** ** C9: the opening shortcut *)

(** C9. On the initial board [minimax] returns (0, 0) at once, the
    generator untouched, and (0, 0) is a legal action that keeps the
    minimax value of the initial board. *)
Theorem opening_shortcut
    (rng : Type) (shuffle : rng -> list action -> list action * rng) (s : rng) :
  minimax shuffle initial_state s = Val (Some (0, 0), s) /\
  In (0, 0) (actions initial_state) /\
  minimax_value (move initial_state (0, 0)) = minimax_value initial_state.
Proof.
  split; [reflexivity|]. split; [simpl; auto|].
  rewrite corner_value, initial_value. reflexivity.
Qed.

(** ** C10: utility away from terminal boards *)

(** C10. [utility] returns a value on every board, and 0 on every board
    without a three-in-a-row winner, terminal or not; so when the depth
    budget is used up the two procedures return that value and no
    action. *)
Theorem utility_total_on_boards
    (rng : Type) (shuffle : rng -> list action -> list action * rng) b :
  wf_board b ->
  (exists u, utility b = Val u /\ (u = -1 \/ u = 0 \/ u = 1)) /\
  (winner b = Val None -> utility b = Val 0) /\
  (forall depth alpha beta s,
     depth < 0 ->
     maxValue shuffle b depth alpha beta s = Val ((Fin (utility_of b), None), s) /\
     minValue shuffle b depth alpha beta s = Val ((Fin (utility_of b), None), s)).
Proof.
  intros Hwf. destruct (winner_total Hwf) as [w Hw]. split; [|split].
  - unfold utility. rewrite Hw. simpl.
    destruct w as [[|]|]; eexists; split; try reflexivity; auto.
  - intros Hnone. unfold utility. rewrite Hnone. reflexivity.
  - intros depth alpha beta s Hneg. unfold maxValue, minValue.
    replace (Z.to_nat (depth + 1)) with 0%nat by lia.
    split; apply base_case_run, Hwf.
Qed.

Lemma utility_total_on_boards_witness :
  (exists u, utility open_row = Val u /\ (u = -1 \/ u = 0 \/ u = 1)) /\
  (winner open_row = Val None -> utility open_row = Val 0) /\
  (forall depth alpha beta s,
     depth < 0 ->
     maxValue reverse_order open_row depth alpha beta s
     = Val ((Fin (utility_of open_row), None), s) /\
     minValue reverse_order open_row depth alpha beta s
     = Val ((Fin (utility_of open_row), None), s)).
Proof.
  apply (@utility_total_on_boards unit reverse_order open_row).
  apply wf_boardb_spec. reflexivity.
Defined.

(* ================================================================== *)
(** * Further properties of the board model *)

Lemma actions_row_major_all : forallb actions_row_major all_boards = true.
Proof. vm_compute. reflexivity. Qed.

Lemma move_uses_action_all : forallb move_uses_action all_boards = true.
Proof. vm_compute. reflexivity. Qed.

Lemma winner_scan_ok_all : forallb winner_scan_ok all_boards = true.
Proof. vm_compute. reflexivity. Qed.

Lemma terminal_persists_all : forallb terminal_persists all_boards = true.
Proof. vm_compute. reflexivity. Qed.

Lemma completion_wins_for_all m : forallb (completion_wins_for m) all_boards = true.
Proof. destruct m; vm_compute; reflexivity. Qed.

Lemma unblocked_loses_all m : forallb (unblocked_loses m) all_boards = true.
Proof. destruct m; vm_compute; reflexivity. Qed.

Lemma actions_eqb_eq l1 l2 : actions_eqb l1 l2 = true <-> l1 = l2.
Proof.
  revert l2. induction l1 as [|a1 l1 IH]; intros [|a2 l2]; simpl;
    try (split; congruence).
  rewrite andb_true_iff, action_eqb_eq, IH.
  split; [intros [-> ->] | intros [= -> ->]]; auto.
Qed.

Lemma holds_spec b p c : holds b p c = true <-> cell_at b p = Val c.
Proof.
  unfold holds. destruct (cell_at b p) as [c'|e].
  - rewrite cell_eqb_eq. split; congruence.
  - split; discriminate.
Qed.

Lemma cells_range i j : In (i, j) cells <-> 0 <= i <= 2 /\ 0 <= j <= 2.
Proof.
  split.
  - simpl. intros H. repeat destruct H as [[= <- <-] | H]; try lia; try contradiction.
  - intros [Hi Hj].
    assert (Hi' : i = 0 \/ i = 1 \/ i = 2) by lia.
    assert (Hj' : j = 0 \/ j = 1 \/ j = 2) by lia.
    destruct Hi' as [-> | [-> | ->]]; destruct Hj' as [-> | [-> | ->]];
      simpl; tauto.
Qed.

Lemma cells_NoDup : NoDup cells.
Proof.
  unfold cells. simpl.
  repeat (constructor; [simpl; intros H;
                        repeat destruct H as [H | H]; try discriminate H; exact H|]).
  constructor.
Qed.

Lemma without_not_In a l : ~ In a (without a l).
Proof.
  unfold without. intros H. apply filter_In in H. destruct H as [_ H].
  rewrite (proj2 (action_eqb_eq a a) eq_refl) in H. discriminate.
Qed.

(** X1. [actions] lists exactly the empty cells of a 3x3 board, each
    once, row by row: (i, j) is listed exactly when i and j are in 0..2
    and [board[i][j]] is EMPTY. *)
Theorem actions_are_the_empty_cells b :
  wf_board b ->
  actions b = empty_cells b /\
  NoDup (actions b) /\
  (forall i j,
     In (i, j) (actions b) <->
     0 <= i <= 2 /\ 0 <= j <= 2 /\ cell_at b (i, j) = Val EMPTY).
Proof.
  intros Hwf.
  assert (Heq : actions b = empty_cells b)
    by (apply actions_eqb_eq, (all_boards_check _ actions_row_major_all Hwf)).
  rewrite Heq. unfold empty_cells. split; [reflexivity|]. split.
  - apply NoDup_filter, cells_NoDup.
  - intros i j. rewrite filter_In, cells_range, holds_spec. tauto.
Qed.

Lemma actions_are_the_empty_cells_witness :
  actions open_row = empty_cells open_row /\
  NoDup (actions open_row) /\
  (forall i j,
     In (i, j) (actions open_row) <->
     0 <= i <= 2 /\ 0 <= j <= 2 /\ cell_at open_row (i, j) = Val EMPTY).
Proof.
  apply (@actions_are_the_empty_cells open_row).
  apply wf_boardb_spec. reflexivity.
Defined.

(** X2. Playing an action of [actions board] with [result] succeeds and
    uses up exactly that action: the new board offers the old actions
    without it, in the same order. *)
Theorem result_uses_up_the_action b a :
  wf_board b -> In a (actions b) ->
  exists b',
    result b a = Val b' /\
    actions b' = without a (actions b) /\
    ~ In a (actions b') /\
    S (length (actions b')) = length (actions b).
Proof.
  intros Hwf Ha. destruct (legal_move a Hwf Ha) as (Hres & _ & _ & Hlen).
  exists (move b a). split; [exact Hres|].
  pose proof (all_boards_check _ move_uses_action_all Hwf) as H.
  unfold move_uses_action in H. rewrite forallb_forall in H.
  specialize (H a Ha). apply actions_eqb_eq in H.
  split; [exact H|]. split; [rewrite H; apply without_not_In | exact Hlen].
Qed.

Lemma result_uses_up_the_action_witness :
  exists b',
    result open_row (1, 1) = Val b' /\
    actions b' = without (1, 1) (actions open_row) /\
    ~ In (1, 1) (actions b') /\
    S (length (actions b')) = length (actions open_row).
Proof.
  apply (@result_uses_up_the_action open_row (1, 1)).
  - apply wf_boardb_spec. reflexivity.
  - simpl. tauto.
Defined.

(** X3. [winner] finds the lines: it returns [None] exactly when neither
    mark fills one of the eight lines; a mark it returns fills a line;
    and when only one mark fills a line it returns that mark. *)
Theorem winner_finds_the_lines b :
  wf_board b ->
  exists w,
    winner b = Val w /\
    (w = None <-> has_line b X = false /\ has_line b O = false) /\
    (forall m, w = Some m -> has_line b m = true) /\
    (forall m, has_line b m = true -> has_line b (other m) = false ->
               w = Some m).
Proof.
  intros Hwf. pose proof (all_boards_check _ winner_scan_ok_all Hwf) as H.
  unfold winner_scan_ok in H. destruct (winner b) as [w|]; [|discriminate].
  exists w. split; [reflexivity|]. destruct w as [m|].
  - split; [|split].
    + split; [discriminate|]. intros [Hx Ho]. destruct m; congruence.
    + intros m' [= <-]. exact H.
    + intros m' Hm' Hother. destruct m, m'; simpl in Hother; congruence.
  - apply andb_true_iff in H. destruct H as [Hx Ho].
    apply negb_true_iff in Hx, Ho. split; [|split].
    + split; auto.
    + discriminate.
    + intros m' Hm'. destruct m'; congruence.
Qed.

Lemma winner_finds_the_lines_witness :
  exists w,
    winner x_won = Val w /\
    (w = None <-> has_line x_won X = false /\ has_line x_won O = false) /\
    (forall m, w = Some m -> has_line x_won m = true) /\
    (forall m, has_line x_won m = true -> has_line x_won (other m) = false ->
               w = Some m).
Proof.
  apply (@winner_finds_the_lines x_won).
  apply wf_boardb_spec. reflexivity.
Defined.

(** X4. What [terminal] returns is truthy exactly when some mark fills a
    line or no cell is empty. *)
Theorem terminal_means_line_or_full b :
  wf_board b ->
  exists t,
    terminal b = Val t /\
    (truthy t = true <->
     has_line b X = true \/ has_line b O = true \/ empty_cells b = []).
Proof.
  intros Hwf. pose proof (all_boards_check _ winner_scan_ok_all Hwf) as H.
  assert (Heq : actions b = empty_cells b)
    by (apply actions_eqb_eq, (all_boards_check _ actions_row_major_all Hwf)).
  unfold winner_scan_ok in H. unfold terminal.
  destruct (winner b) as [[m|]|]; [| |discriminate]; simpl.
  - eexists. split; [reflexivity|]. simpl.
    split; [intros _; destruct m; auto | reflexivity].
  - apply andb_true_iff in H. destruct H as [Hx Ho].
    apply negb_true_iff in Hx, Ho. rewrite Heq.
    eexists. split; [reflexivity|]. simpl. rewrite Hx, Ho.
    destruct (empty_cells b); split; auto; try discriminate.
    intros [H | [H | H]]; discriminate.
Qed.

Lemma terminal_means_line_or_full_witness :
  exists t,
    terminal x_won = Val t /\
    (truthy t = true <->
     has_line x_won X = true \/ has_line x_won O = true
     \/ empty_cells x_won = []).
Proof.
  apply (@terminal_means_line_or_full x_won).
  apply wf_boardb_spec. reflexivity.
Defined.

(** X5. [result] does not look at whether the game is over: on a
    terminal board every action of [actions board] is still played, and
    the board it gives is terminal again. *)
Theorem game_over_stays_over b a :
  wf_board b -> is_terminal b = true -> In a (actions b) ->
  exists b', result b a = Val b' /\ is_terminal b' = true.
Proof.
  intros Hwf Ht Ha. destruct (legal_move a Hwf Ha) as (Hres & _).
  exists (move b a). split; [exact Hres|].
  pose proof (all_boards_check _ terminal_persists_all Hwf) as H.
  unfold terminal_persists in H. rewrite Ht, forallb_forall in H. auto.
Qed.

Lemma game_over_stays_over_witness :
  exists b', result x_won (2, 2) = Val b' /\ is_terminal b' = true.
Proof.
  apply (@game_over_stays_over x_won (2, 2)).
  - apply wf_boardb_spec. reflexivity.
  - reflexivity.
  - simpl. tauto.
Defined.

Lemma play_invariant moves :
  forall b0 b,
    wf_board b0 -> count b0 = 0 \/ count b0 = 1 ->
    play b0 moves = Val b ->
    wf_board b /\
    (length moves + length (actions b) = length (actions b0))%nat /\
    count b = (count b0 + Z.of_nat (length moves)) mod 2.
Proof.
  induction moves as [|a rest IH]; intros b0 b Hwf Hc Hplay; simpl in Hplay.
  - injection Hplay as <-. split; [assumption|]. split; [reflexivity|].
    destruct Hc as [-> | ->]; reflexivity.
  - destruct (existsb (action_eqb a) (actions b0)) eqn:Hin; [|discriminate].
    apply existsb_exists in Hin. destruct Hin as (a0 & Hin & Heq).
    apply action_eqb_eq in Heq. subst a0.
    destruct (legal_move a Hwf Hin) as (Hres & Hwf' & Hc' & Hlen).
    rewrite Hres in Hplay. simpl in Hplay.
    assert (Hc1 : count (move b0 a) = 0 \/ count (move b0 a) = 1)
      by (rewrite Hc'; destruct Hc as [-> | ->]; simpl; auto).
    destruct (IH _ _ Hwf' Hc1 Hplay) as (Hwfb & Hlenb & Hcb).
    split; [assumption|]. split; [cbn [length]; lia|].
    rewrite Hcb, Hc'. cbn [length]. rewrite Nat2Z.inj_succ.
    destruct Hc as [-> | ->].
    + change (0 =? 0) with true. cbv iota. f_equal. lia.
    + change (1 =? 0) with false. cbv iota.
      replace (1 + Z.succ (Z.of_nat (length rest)))
        with (1 + -1 + Z.of_nat (length rest) + 1 * 2) by lia.
      symmetry. apply Z.mod_add. lia.
Qed.

(** X6. Playing [n] actions from the initial board, each taken from
    [actions] of the board it is played on, gives a 3x3 board with
    [9 - n] actions left, on which X is to move exactly when [n] is
    even; so no such play is longer than 9 moves. *)
Theorem play_counts_moves moves b :
  play initial_state moves = Val b ->
  wf_board b /\
  (length moves + length (actions b) = 9)%nat /\
  (length moves <= 9)%nat /\
  player b = (if Nat.even (length moves) then X else O).
Proof.
  intros Hplay.
  assert (Hwf0 : wf_board initial_state) by (apply wf_boardb_spec; reflexivity).
  destruct (play_invariant moves Hwf0 (or_introl eq_refl) Hplay)
    as (Hwf & Hlen & Hc).
  change (length (actions initial_state)) with 9%nat in Hlen.
  change (count initial_state) with 0 in Hc. simpl in Hc.
  split; [assumption|]. split; [assumption|]. split; [lia|].
  unfold player. rewrite Hc.
  destruct (Nat.even (length moves)) eqn:Hev.
  - apply Nat.even_spec in Hev. destruct Hev as [k Hk]. rewrite Hk.
    replace (Z.of_nat (2 * k)) with (0 + Z.of_nat k * 2) by lia.
    rewrite Z.mod_add by lia. reflexivity.
  - assert (Hodd : Nat.odd (length moves) = true)
      by (rewrite <- Nat.negb_even, Hev; reflexivity).
    apply Nat.odd_spec in Hodd. destruct Hodd as [k Hk]. rewrite Hk.
    replace (Z.of_nat (2 * k + 1)) with (1 + Z.of_nat k * 2) by lia.
    rewrite Z.mod_add by lia. reflexivity.
Qed.

Lemma play_counts_moves_witness :
  wf_board open_row /\
  (length [(0, 0); (1, 2); (0, 1); (2, 1)] + length (actions open_row) = 9)%nat /\
  (length [(0, 0); (1, 2); (0, 1); (2, 1)] <= 9)%nat /\
  player open_row
  = (if Nat.even (length [(0, 0); (1, 2); (0, 1); (2, 1)]) then X else O).
Proof.
  apply (@play_counts_moves [(0, 0); (1, 2); (0, 1); (2, 1)] open_row).
  reflexivity.
Defined.

(* ================================================================== *)
(** * Further properties of the search *)

Lemma alt_value_deep d :
  forall d' mx b, wf_board b ->
    (length (actions b) < d)%nat -> (length (actions b) < d')%nat ->
    alt_value mx d b = alt_value mx d' b.
Proof.
  induction d as [|d IH]; intros d' mx b Hwf Hd Hd'; [lia|].
  destruct d' as [|d']; [lia|]. simpl.
  destruct (is_terminal b); trivial.
  assert (Hkids : map (fun a => alt_value (negb mx) d (move b a)) (actions b) =
                  map (fun a => alt_value (negb mx) d' (move b a)) (actions b)).
  { apply map_ext_in. intros a Ha.
    destruct (legal_move a Hwf Ha) as (_ & Hwf' & _ & Hlen).
    apply IH; [assumption | lia | lia]. }
  rewrite Hkids. reflexivity.
Qed.

Lemma minimax_value_terminal b :
  is_terminal b = true -> minimax_value b = Fin (utility_of b).
Proof. intros Ht. unfold minimax_value. simpl. rewrite Ht. reflexivity. Qed.

Lemma completing_cell_wins_for m b c :
  wf_board b -> count b = turn_count m -> is_terminal b = false ->
  completes b m c = true ->
  In c (actions b) /\ minimax_value (move b c) = Fin (win_value m).
Proof.
  intros Hwf Hc Ht Hcompl.
  pose proof (all_boards_check _ (completion_wins_for_all m) Hwf) as Hwin.
  unfold completion_wins_for in Hwin.
  rewrite Hc, Z.eqb_refl, Ht, forallb_forall in Hwin.
  specialize (Hwin c (completes_in_cells _ _ _ Hcompl)). rewrite Hcompl in Hwin.
  apply andb_true_iff in Hwin. destruct Hwin as [Hwin Hu].
  apply andb_true_iff in Hwin. destruct Hwin as [Hin Hterm].
  apply Z.eqb_eq in Hu.
  apply existsb_exists in Hin. destruct Hin as (a & Ha & Heq).
  apply action_eqb_eq in Heq. subst a. split; [exact Ha|].
  rewrite (minimax_value_terminal _ Hterm), Hu. reflexivity.
Qed.

(** The player to move with an open line wins. *)
Lemma threat_value m b :
  wf_board b -> count b = turn_count m -> is_terminal b = false ->
  open_two b m = true ->
  minimax_value b = Fin (win_value m).
Proof.
  intros Hwf Hc Ht Hopen.
  apply existsb_exists in Hopen. destruct Hopen as (c & _ & Hcompl).
  destruct (completing_cell_wins_for m c Hwf Hc Ht Hcompl) as [Ha Hval].
  destruct (legal_move c Hwf Ha) as (_ & Hwf' & _ & Hlen).
  assert (Hbound : bounded (minimax_value b))
    by (apply game_value_bounds; [assumption | lia]).
  destruct Hbound as (z & Hz & Hz1).
  assert (Hkid : In (Fin (win_value m))
                   (map (fun a0 => game_value (length (actions b)) (move b a0))
                        (actions b))).
  { rewrite <- Hval, <- (@game_value_full (length (actions b)) (move b c));
      [|assumption | lia].
    apply (in_map (fun a0 => game_value (length (actions b)) (move b a0))), Ha. }
  revert Hz. unfold minimax_value. simpl game_value. rewrite Ht.
  unfold player. rewrite Hc. destruct m; simpl; intros Hz.
  - apply maximum_ge in Hkid. rewrite Hz in *. f_equal.
    unfold sle in Hkid. simpl in Hkid. apply Z.ltb_ge in Hkid. lia.
  - apply minimum_le in Hkid. rewrite Hz in *. f_equal.
    unfold sle in Hkid. simpl in Hkid. apply Z.ltb_ge in Hkid. lia.
Qed.

Section SearchFacts.

Variable rng : Type.
Variable shuffle : rng -> list action -> list action * rng.
Hypothesis shuffle_perm : forall s l, Permutation (fst (shuffle s l)) l.

(** A child that returns a utility for every window. *)
Let returns_utility (f : score -> score -> search rng found) : Prop :=
  forall alpha beta s,
    exists v r s', f alpha beta s = Val ((v, r), s') /\ bounded v.

Lemma max_loop_total (child : board -> score -> score -> search rng found)
    b acts0 :
  (forall a, In a acts0 ->
     result b a = Val (move b a) /\ returns_utility (child (move b a))) ->
  forall acts, incl acts acts0 ->
  forall v a0 alpha beta s,
    bounded v -> In a0 acts0 ->
    exists v' a' s',
      max_loop child b acts v (Some a0) alpha beta s = Val ((v', Some a'), s') /\
      bounded v' /\ In a' acts0.
Proof.
  intros Hch. induction acts as [|a rest IH]; intros Hincl v a0 alpha beta s Hv Ha0.
  - exists v, a0, s. auto.
  - assert (Ha : In a acts0) by (apply Hincl; left; reflexivity).
    destruct (Hch a Ha) as [Hres Hchild].
    destruct (Hchild alpha beta s) as (sc & r & s1 & Hrun & Hsc).
    erewrite max_loop_cons; [|exact Hres|exact Hrun]. cbv zeta.
    assert (Hrest : incl rest acts0) by (intros x Hx; apply Hincl; right; exact Hx).
    destruct (score_ltb v sc); destruct (score_leb beta _).
    + exists sc, a, s1. auto.
    + apply IH; assumption.
    + exists v, a0, s1. auto.
    + apply IH; assumption.
Qed.

Lemma min_loop_total (child : board -> score -> score -> search rng found)
    b acts0 :
  (forall a, In a acts0 ->
     result b a = Val (move b a) /\ returns_utility (child (move b a))) ->
  forall acts, incl acts acts0 ->
  forall v a0 alpha beta s,
    bounded v -> In a0 acts0 ->
    exists v' a' s',
      min_loop child b acts v (Some a0) alpha beta s = Val ((v', Some a'), s') /\
      bounded v' /\ In a' acts0.
Proof.
  intros Hch. induction acts as [|a rest IH]; intros Hincl v a0 alpha beta s Hv Ha0.
  - exists v, a0, s. auto.
  - assert (Ha : In a acts0) by (apply Hincl; left; reflexivity).
    destruct (Hch a Ha) as [Hres Hchild].
    destruct (Hchild alpha beta s) as (sc & r & s1 & Hrun & Hsc).
    erewrite min_loop_cons; [|exact Hres|exact Hrun]. cbv zeta.
    assert (Hrest : incl rest acts0) by (intros x Hx; apply Hincl; right; exact Hx).
    destruct (score_ltb sc v); destruct (score_leb _ alpha).
    + exists sc, a, s1. auto.
    + apply IH; assumption.
    + exists v, a0, s1. auto.
    + apply IH; assumption.
Qed.

(** The first action always replaces the initial -infinity. *)
Lemma max_loop_first (child : board -> score -> score -> search rng found)
    b acts alpha beta s :
  acts <> [] ->
  (forall a, In a acts ->
     result b a = Val (move b a) /\ returns_utility (child (move b a))) ->
  exists v' a' s',
    max_loop child b acts NegInf None alpha beta s = Val ((v', Some a'), s') /\
    bounded v' /\ In a' acts.
Proof.
  destruct acts as [|a rest]; [congruence|]. intros _ Hch.
  destruct (Hch a (or_introl eq_refl)) as [Hres Hchild].
  destruct (Hchild alpha beta s) as (sc & r & s1 & Hrun & Hsc).
  erewrite max_loop_cons; [|exact Hres|exact Hrun]. cbv zeta.
  assert (Hlt : score_ltb NegInf sc = true) by (destruct Hsc as (z & -> & _); reflexivity).
  rewrite Hlt. destruct (score_leb beta _).
  - exists sc, a, s1. simpl. auto.
  - eapply max_loop_total;
      [exact Hch | intros x Hx; right; exact Hx | exact Hsc | now left].
Qed.

Lemma min_loop_first (child : board -> score -> score -> search rng found)
    b acts alpha beta s :
  acts <> [] ->
  (forall a, In a acts ->
     result b a = Val (move b a) /\ returns_utility (child (move b a))) ->
  exists v' a' s',
    min_loop child b acts PosInf None alpha beta s = Val ((v', Some a'), s') /\
    bounded v' /\ In a' acts.
Proof.
  destruct acts as [|a rest]; [congruence|]. intros _ Hch.
  destruct (Hch a (or_introl eq_refl)) as [Hres Hchild].
  destruct (Hchild alpha beta s) as (sc & r & s1 & Hrun & Hsc).
  erewrite min_loop_cons; [|exact Hres|exact Hrun]. cbv zeta.
  assert (Hlt : score_ltb sc PosInf = true) by (destruct Hsc as (z & -> & _); reflexivity).
  rewrite Hlt. destruct (score_leb _ alpha).
  - exists sc, a, s1. simpl. auto.
  - eapply min_loop_total;
      [exact Hch | intros x Hx; right; exact Hx | exact Hsc | now left].
Qed.

(** What both procedures return at [d = depth + 1], for every window. *)
Let answers (f : score -> score -> search rng found) (d : nat) (b : board)
    : Prop :=
  forall alpha beta s,
    exists v r s',
      f alpha beta s = Val ((v, r), s') /\
      bounded v /\
      (r = None <-> d = 0%nat \/ is_terminal b = true) /\
      (forall a, r = Some a -> In a (actions b)).

Lemma search_answers d :
  forall b, wf_board b ->
    answers (maxValue_at shuffle d b) d b /\
    answers (minValue_at shuffle d b) d b.
Proof.
  induction d as [|d IH]; intros b Hwf.
  - split; intros alpha beta s; exists (Fin (utility_of b)), None, s;
      (split; [apply base_case_run, Hwf|]);
      (split; [exists (utility_of b); split;
                 [reflexivity | apply utility_total, Hwf]|]);
      (split; [tauto | discriminate]).
  - destruct (is_terminal b) eqn:Ht.
    + split; intros alpha beta s; exists (Fin (utility_of b)), None, s;
        (split; [first [apply maxValue_at_terminal | apply minValue_at_terminal];
                 assumption|]);
        (split; [exists (utility_of b); split;
                   [reflexivity | apply utility_total, Hwf]|]);
        (split; [tauto | discriminate]).
    + split; intros alpha beta s.
      * rewrite maxValue_at_step by assumption.
        destruct (@max_loop_first (minValue_at shuffle d) b
                    (fst (shuffle s (actions b))) alpha beta
                    (snd (shuffle s (actions b))))
          as (v' & a' & s' & Hrun & Hv' & Ha').
        { apply shuffled_nonempty;
            [exact shuffle_perm | exact (not_terminal_actions Hwf Ht)]. }
        { intros a Ha. apply (@shuffled_In rng shuffle shuffle_perm) in Ha.
          destruct (legal_move a Hwf Ha) as (Hres & Hwf' & _).
          split; [exact Hres|]. intros al be s1.
          destruct (proj2 (IH _ Hwf') al be s1) as (v & r & s2 & Hr & Hb & _).
          eauto. }
        exists v', (Some a'), s'. split; [exact Hrun|]. split; [exact Hv'|].
        split; [split; [discriminate | intros [H | H]; congruence]|].
        intros a [= <-]. apply (@shuffled_In rng shuffle shuffle_perm) in Ha'. exact Ha'.
      * rewrite minValue_at_step by assumption.
        destruct (@min_loop_first (maxValue_at shuffle d) b
                    (fst (shuffle s (actions b))) alpha beta
                    (snd (shuffle s (actions b))))
          as (v' & a' & s' & Hrun & Hv' & Ha').
        { apply shuffled_nonempty;
            [exact shuffle_perm | exact (not_terminal_actions Hwf Ht)]. }
        { intros a Ha. apply (@shuffled_In rng shuffle shuffle_perm) in Ha.
          destruct (legal_move a Hwf Ha) as (Hres & Hwf' & _).
          split; [exact Hres|]. intros al be s1.
          destruct (proj1 (IH _ Hwf') al be s1) as (v & r & s2 & Hr & Hb & _).
          eauto. }
        exists v', (Some a'), s'. split; [exact Hrun|]. split; [exact Hv'|].
        split; [split; [discriminate | intros [H | H]; congruence]|].
        intros a [= <-]. apply (@shuffled_In rng shuffle shuffle_perm) in Ha'. exact Ha'.
Qed.

End SearchFacts.

(** X7. For every window alpha < beta and every depth budget, [maxValue]
    and [minValue] return a finite score bounded by the window as
    alpha-beta search promises: a score above alpha is a lower bound of
    the depth-limited minimax value, a score below beta an upper bound,
    so a score strictly inside the window is that value. *)
Theorem search_respects_window
    (rng : Type) (shuffle : rng -> list action -> list action * rng) :
  (forall s l, Permutation (fst (shuffle s l)) l) ->
  forall b depth alpha beta s,
    wf_board b -> slt alpha beta ->
    (exists z a s',
       maxValue shuffle b depth alpha beta s = Val ((Fin z, a), s') /\
       within (alt_value true (Z.to_nat (depth + 1)) b) alpha beta (Fin z) /\
       (slt alpha (Fin z) -> slt (Fin z) beta ->
        Fin z = alt_value true (Z.to_nat (depth + 1)) b)) /\
    (exists z a s',
       minValue shuffle b depth alpha beta s = Val ((Fin z, a), s') /\
       within (alt_value false (Z.to_nat (depth + 1)) b) alpha beta (Fin z) /\
       (slt alpha (Fin z) -> slt (Fin z) beta ->
        Fin z = alt_value false (Z.to_nat (depth + 1)) b)).
Proof.
  intros Hperm b depth alpha beta s Hwf Hab. unfold maxValue, minValue.
  destruct (@alphabeta_sound rng shuffle Hperm (Z.to_nat (depth + 1)) b Hwf)
    as [Hmax Hmin].
  split.
  - destruct (Hmax alpha beta s Hab) as (z & a & s' & Hrun & Hw).
    exists z, a, s'. split; [exact Hrun|]. split; [exact Hw|].
    intros H1 H2. destruct Hw as [Hlo Hup]. apply sle_antisym; auto.
  - destruct (Hmin alpha beta s Hab) as (z & a & s' & Hrun & Hw).
    exists z, a, s'. split; [exact Hrun|]. split; [exact Hw|].
    intros H1 H2. destruct Hw as [Hlo Hup]. apply sle_antisym; auto.
Qed.

Lemma search_respects_window_witness :
  (exists z a s',
     maxValue reverse_order open_row 3 (Fin (-1)) (Fin 0) tt
     = Val ((Fin z, a), s') /\
     within (alt_value true (Z.to_nat (3 + 1)) open_row) (Fin (-1)) (Fin 0) (Fin z) /\
     (slt (Fin (-1)) (Fin z) -> slt (Fin z) (Fin 0) ->
      Fin z = alt_value true (Z.to_nat (3 + 1)) open_row)) /\
  (exists z a s',
     minValue reverse_order open_row 3 (Fin (-1)) (Fin 0) tt
     = Val ((Fin z, a), s') /\
     within (alt_value false (Z.to_nat (3 + 1)) open_row) (Fin (-1)) (Fin 0) (Fin z) /\
     (slt (Fin (-1)) (Fin z) -> slt (Fin z) (Fin 0) ->
      Fin z = alt_value false (Z.to_nat (3 + 1)) open_row)).
Proof.
  apply (@search_respects_window unit reverse_order).
  - intros s l. apply Permutation_sym, Permutation_rev.
  - apply wf_boardb_spec. reflexivity.
  - reflexivity.
Defined.

(** X8. On a 3x3 board [maxValue] and [minValue] never raise, whatever
    the window, the depth budget and the shuffle: they return a score
    among -1, 0, 1, with no action exactly when the budget is used up
    ([depth < 0]) or the board is terminal, and otherwise with an action
    of [actions board]. *)
Theorem search_never_raises
    (rng : Type) (shuffle : rng -> list action -> list action * rng) :
  (forall s l, Permutation (fst (shuffle s l)) l) ->
  forall b depth alpha beta s,
    wf_board b ->
    (exists z r s',
       maxValue shuffle b depth alpha beta s = Val ((Fin z, r), s') /\
       -1 <= z <= 1 /\
       (r = None <-> depth < 0 \/ is_terminal b = true) /\
       (forall a, r = Some a -> In a (actions b))) /\
    (exists z r s',
       minValue shuffle b depth alpha beta s = Val ((Fin z, r), s') /\
       -1 <= z <= 1 /\
       (r = None <-> depth < 0 \/ is_terminal b = true) /\
       (forall a, r = Some a -> In a (actions b))).
Proof.
  intros Hperm b depth alpha beta s Hwf. unfold maxValue, minValue.
  assert (Hd : Z.to_nat (depth + 1) = 0%nat <-> depth < 0) by lia.
  destruct (@search_answers rng shuffle Hperm (Z.to_nat (depth + 1)) b Hwf)
    as [Hmax Hmin].
  split.
  - destruct (Hmax alpha beta s) as (v & r & s' & Hrun & (z & -> & Hz) & Hnone & Hin).
    exists z, r, s'. rewrite <- Hd. auto.
  - destruct (Hmin alpha beta s) as (v & r & s' & Hrun & (z & -> & Hz) & Hnone & Hin).
    exists z, r, s'. rewrite <- Hd. auto.
Qed.

Lemma search_never_raises_witness :
  (exists z r s',
     maxValue reverse_order two_x 2 (Fin 1) (Fin (-1)) tt = Val ((Fin z, r), s') /\
     -1 <= z <= 1 /\
     (r = None <-> 2 < 0 \/ is_terminal two_x = true) /\
     (forall a, r = Some a -> In a (actions two_x))) /\
  (exists z r s',
     minValue reverse_order two_x 2 (Fin 1) (Fin (-1)) tt = Val ((Fin z, r), s') /\
     -1 <= z <= 1 /\
     (r = None <-> 2 < 0 \/ is_terminal two_x = true) /\
     (forall a, r = Some a -> In a (actions two_x))).
Proof.
  apply (@search_never_raises unit reverse_order).
  - intros s l. apply Permutation_sym, Permutation_rev.
  - apply wf_boardb_spec. reflexivity.
Defined.

(** X9. On every 3x3 board, reachable or not, [minimax] never raises:
    it returns [None] exactly when the board is terminal, and otherwise
    an action of [actions board], which [result] accepts. *)
Theorem minimax_returns_none_or_legal
    (rng : Type) (shuffle : rng -> list action -> list action * rng) :
  (forall s l, Permutation (fst (shuffle s l)) l) ->
  forall b s,
    wf_board b ->
    exists r s',
      minimax shuffle b s = Val (r, s') /\
      (r = None <-> is_terminal b = true) /\
      (forall a, r = Some a ->
         In a (actions b) /\ exists b', result b a = Val b').
Proof.
  intros Hperm b s Hwf.
  destruct (board_eqb b initial_state) eqn:E.
  - apply board_eqb_eq in E. subst b. exists (Some (0, 0)), s.
    split; [reflexivity|]. split; [split; discriminate|].
    intros a [= <-]. split; [simpl; tauto | eexists; reflexivity].
  - rewrite minimax_dispatch by exact E.
    destruct (@search_answers rng shuffle Hperm (S (Z.to_nat ACCURACY)) b Hwf)
      as [Hmax Hmin].
    assert (Hgoal : forall f : score -> score -> search rng found,
               (forall alpha beta s0,
                  exists v r s',
                    f alpha beta s0 = Val ((v, r), s') /\ bounded v /\
                    (r = None <-> S (Z.to_nat ACCURACY) = 0%nat
                                  \/ is_terminal b = true) /\
                    (forall a, r = Some a -> In a (actions b))) ->
               exists r s',
                 match f NegInf PosInf s with
                 | Val (r0, s0) => Val (snd r0, s0)
                 | Raise e => Raise e
                 end = Val (r, s') /\
                 (r = None <-> is_terminal b = true) /\
                 (forall a, r = Some a ->
                    In a (actions b) /\ exists b', result b a = Val b')).
    { intros f Hf. destruct (Hf NegInf PosInf s) as (v & r & s' & Hrun & _ & Hnone & Hin).
      exists r, s'. rewrite Hrun. split; [reflexivity|]. split.
      - rewrite Hnone. split; [intros [H | H]; [discriminate | exact H] | auto].
      - intros a Ha. specialize (Hin a Ha). split; [exact Hin|].
        exists (move b a). apply legal_move; assumption. }
    destruct (count b =? 0); apply Hgoal; assumption.
Qed.

Lemma minimax_returns_none_or_legal_witness :
  exists r s',
    minimax reverse_order two_x tt = Val (r, s') /\
    (r = None <-> is_terminal two_x = true) /\
    (forall a, r = Some a ->
       In a (actions two_x) /\ exists b', result two_x a = Val b').
Proof.
  apply (@minimax_returns_none_or_legal unit reverse_order).
  - intros s l. apply Permutation_sym, Permutation_rev.
  - apply wf_boardb_spec. reflexivity.
Defined.

(** X10. The depth budget is slack once it covers the empty cells: on a
    3x3 board every budget [depth >= len(actions(board))] (so every
    budget from 9 on, ACCURACY among them) gives, with the full window,
    the same value, whatever the shuffle. *)
Theorem depth_budget_is_slack
    (rng : Type) (shuffle : rng -> list action -> list action * rng) :
  (forall s l, Permutation (fst (shuffle s l)) l) ->
  forall b,
    wf_board b ->
    exists vmax vmin,
      forall depth s,
        Z.of_nat (length (actions b)) <= depth ->
        (exists a s',
           maxValue shuffle b depth NegInf PosInf s = Val ((vmax, a), s')) /\
        (exists a s',
           minValue shuffle b depth NegInf PosInf s = Val ((vmin, a), s')).
Proof.
  intros Hperm b Hwf.
  exists (alt_value true (S (length (actions b))) b),
         (alt_value false (S (length (actions b))) b).
  intros depth s Hdepth. unfold maxValue, minValue.
  assert (Hd : (length (actions b) < Z.to_nat (depth + 1))%nat) by lia.
  destruct (@alphabeta_sound rng shuffle Hperm (Z.to_nat (depth + 1)) b Hwf)
    as [Hmax Hmin].
  split.
  - destruct (Hmax NegInf PosInf s eq_refl) as (z & a & s' & Hrun & Hw).
    apply within_full in Hw. exists a, s'. rewrite Hrun, <- Hw.
    do 3 f_equal. apply alt_value_deep; [assumption | assumption | lia].
  - destruct (Hmin NegInf PosInf s eq_refl) as (z & a & s' & Hrun & Hw).
    apply within_full in Hw. exists a, s'. rewrite Hrun, <- Hw.
    do 3 f_equal. apply alt_value_deep; [assumption | assumption | lia].
Qed.

Lemma depth_budget_is_slack_witness :
  exists vmax vmin,
    forall depth s,
      Z.of_nat (length (actions open_row)) <= depth ->
      (exists a s',
         maxValue reverse_order open_row depth NegInf PosInf s
         = Val ((vmax, a), s')) /\
      (exists a s',
         minValue reverse_order open_row depth NegInf PosInf s
         = Val ((vmin, a), s')).
Proof.
  apply (@depth_budget_is_slack unit reverse_order).
  - intros s l. apply Permutation_sym, Permutation_rev.
  - apply wf_boardb_spec. reflexivity.
Defined.

(** X11. The second player's forced win: on a non-terminal board where
    X has one mark more than O (so it is O's turn) and O has two marks in
    a line whose third cell is empty, [minimax] returns, for every
    shuffle, an action of [actions board] after which O wins under best
    play (minimax value -1); every completing cell is such an action. *)
Theorem minimax_finds_forced_win_for_O
    (rng : Type) (shuffle : rng -> list action -> list action * rng) :
  (forall s l, Permutation (fst (shuffle s l)) l) ->
  forall b s,
    wf_board b -> count b = 1 -> is_terminal b = false ->
    open_two b O = true ->
    player b = O /\
    (exists a s',
       minimax shuffle b s = Val (Some a, s') /\
       In a (actions b) /\
       minimax_value (move b a) = Fin (-1)) /\
    (forall c, completes b O c = true ->
       In c (actions b) /\ minimax_value (move b c) = Fin (-1)).
Proof.
  intros Hperm b s Hwf Hc Ht Hopen.
  split; [unfold player; rewrite Hc; reflexivity|]. split.
  - assert (Hne : board_eqb b initial_state = false).
    { destruct (board_eqb b initial_state) eqn:E; trivial.
      apply board_eqb_eq in E. subst b. discriminate Hopen. }
    destruct (@minimax_optimal rng shuffle Hperm b s Hwf (or_intror Hc) Ht Hne)
      as (a & s' & Hrun & Ha & Hval).
    exists a, s'. rewrite Hval.
    split; [exact Hrun|]. split; [exact Ha|].
    exact (@threat_value O b Hwf Hc Ht Hopen).
  - intros c Hcompl. exact (@completing_cell_wins_for O b c Hwf Hc Ht Hcompl).
Qed.

Lemma minimax_finds_forced_win_for_O_witness :
  player o_to_win = O /\
  (exists a s',
     minimax reverse_order o_to_win tt = Val (Some a, s') /\
     In a (actions o_to_win) /\
     minimax_value (move o_to_win a) = Fin (-1)) /\
  (forall c, completes o_to_win O c = true ->
     In c (actions o_to_win) /\ minimax_value (move o_to_win c) = Fin (-1)).
Proof.
  apply (@minimax_finds_forced_win_for_O unit reverse_order).
  - intros s l. apply Permutation_sym, Permutation_rev.
  - apply wf_boardb_spec. reflexivity.
  - reflexivity.
  - reflexivity.
  - reflexivity.
Defined.

Lemma turn_count_other b m :
  wf_board b -> count b = turn_count m -> forall a, In a (actions b) ->
  count (move b a) = turn_count (other m).
Proof.
  intros Hwf Hc a Ha. destruct (legal_move a Hwf Ha) as (_ & _ & Hc' & _).
  rewrite Hc', Hc. destruct m; reflexivity.
Qed.

(** X12. Forced defence, as far as it holds: on a non-terminal board
    with [m] to move where the other player has two marks in a line
    whose third cell is empty, if the position is a draw under best play
    (minimax value 0) then [minimax] returns, for every shuffle, a cell
    that completes such a line, that is, it blocks.  (When the value is
    not 0 the game is won or lost whatever is played, and the action
    returned need not block.) *)
Theorem minimax_blocks_when_drawn
    (rng : Type) (shuffle : rng -> list action -> list action * rng) :
  (forall s l, Permutation (fst (shuffle s l)) l) ->
  forall m b s,
    wf_board b -> count b = turn_count m -> is_terminal b = false ->
    open_two b (other m) = true ->
    minimax_value b = Fin 0 ->
    player b = m /\
    exists a s',
      minimax shuffle b s = Val (Some a, s') /\
      In a (actions b) /\
      completes b (other m) a = true.
Proof.
  intros Hperm m b s Hwf Hc Ht Hopen Hdraw.
  split; [unfold player; rewrite Hc; destruct m; reflexivity|].
  assert (Hne : board_eqb b initial_state = false).
  { destruct (board_eqb b initial_state) eqn:E; trivial.
    apply board_eqb_eq in E. subst b. destruct m; discriminate Hopen. }
  assert (Hbal : count b = 0 \/ count b = 1)
    by (rewrite Hc; destruct m; simpl; auto).
  destruct (@minimax_optimal rng shuffle Hperm b s Hwf Hbal Ht Hne)
    as (a & s' & Hrun & Ha & Hval).
  exists a, s'. split; [exact Hrun|]. split; [exact Ha|].
  destruct (completes b (other m) a) eqn:Hblock; [reflexivity|]. exfalso.
  pose proof (all_boards_check _ (unblocked_loses_all m) Hwf) as Hchk.
  unfold unblocked_loses in Hchk.
  rewrite Hc, Z.eqb_refl, Ht, forallb_forall in Hchk.
  specialize (Hchk a Ha). rewrite Hblock, Hopen in Hchk.
  destruct (legal_move a Hwf Ha) as (_ & Hwf' & _ & _).
  rewrite Hdraw in Hval.
  destruct (is_terminal (move b a)) eqn:Ht'.
  - apply Z.eqb_eq in Hchk.
    rewrite (minimax_value_terminal _ Ht'), Hchk in Hval.
    destruct m; discriminate Hval.
  - rewrite (@threat_value (other m) (move b a) Hwf'
               (turn_count_other m Hwf Hc a Ha) Ht' Hchk) in Hval.
    destruct m; discriminate Hval.
Qed.

Lemma minimax_blocks_when_drawn_witness :
  player must_block = X /\
  exists a s',
    minimax reverse_order must_block tt = Val (Some a, s') /\
    In a (actions must_block) /\
    completes must_block (other X) a = true.
Proof.
  apply (@minimax_blocks_when_drawn unit reverse_order).
  - intros s l. apply Permutation_sym, Permutation_rev.
  - apply wf_boardb_spec. reflexivity.
  - reflexivity.
  - reflexivity.
  - reflexivity.
  - vm_compute. reflexivity.
Defined.

(** X13. The opening shortcut agrees with the search it skips: run on
    the initial board with the budget and window [minimax] uses,
    [maxValue] returns, for every shuffle, the value 0 and an action
    whose minimax value is that of the shortcut's (0, 0). *)
Theorem full_search_at_the_opening
    (rng : Type) (shuffle : rng -> list action -> list action * rng) :
  (forall s l, Permutation (fst (shuffle s l)) l) ->
  forall s,
    exists a s',
      maxValue shuffle initial_state ACCURACY NegInf PosInf s
      = Val ((Fin 0, Some a), s') /\
      In a (actions initial_state) /\
      minimax_value (move initial_state a)
      = minimax_value (move initial_state (0, 0)).
Proof.
  intros Hperm s. unfold maxValue.
  destruct accuracy_depth as [Hacc Hdeep]. rewrite Hacc.
  set (d := Z.to_nat ACCURACY) in *. clearbody d.
  assert (Hwf : wf_board initial_state) by (apply wf_boardb_spec; reflexivity).
  destruct (@max_node rng shuffle Hperm d initial_state Hwf initial_not_terminal
              (fun b' H => proj2 (@alphabeta_sound rng shuffle Hperm d b' H))
              NegInf PosInf s eq_refl)
    as (z & a & s' & Hrun & Hw & Ha & Hval).
  apply within_full in Hw.
  assert (Hlen : length (actions initial_state) = 9%nat) by reflexivity.
  rewrite (proj1 (alt_value_game (S d) Hwf) eq_refl) in Hw.
  rewrite (@game_value_full (S d) initial_state Hwf) in Hw by lia.
  rewrite initial_value in Hw. injection Hw as Hz. subst z.
  exists a, s'. split; [exact Hrun|]. split; [exact Ha|].
  destruct (legal_move a Hwf Ha) as (_ & Hwf' & Hc' & Hlen').
  specialize (Hval eq_refl eq_refl).
  rewrite (proj2 (alt_value_game d Hwf') Hc') in Hval.
  rewrite (@game_value_full d (move initial_state a) Hwf') in Hval by lia.
  rewrite Hval, corner_value. reflexivity.
Qed.

Lemma full_search_at_the_opening_witness :
  exists a s',
    maxValue keep_order initial_state ACCURACY NegInf PosInf tt
    = Val ((Fin 0, Some a), s') /\
    In a (actions initial_state) /\
    minimax_value (move initial_state a)
    = minimax_value (move initial_state (0, 0)).
Proof.
  apply (@full_search_at_the_opening unit keep_order).
  intros s l. apply Permutation_refl.
Defined.

Lemma only_mover_wins_all : forallb only_mover_wins all_boards = true.
Proof. vm_compute. reflexivity. Qed.

Lemma mark_eqb_eq m1 m2 : mark_eqb m1 m2 = true <-> m1 = m2.
Proof. destruct m1, m2; simpl; split; congruence. Qed.

(** X14. Only the mover can win: when [winner] finds no winner on a
    board and an action of [actions board] is played with [result],
    [winner] finds on the new board either no winner or the mark just
    placed, that of [player board]. *)
Theorem only_the_mover_wins b a :
  wf_board b -> winner b = Val None -> In a (actions b) ->
  exists b',
    result b a = Val b' /\
    (winner b' = Val None \/ winner b' = Val (Some (player b))).
Proof.
  intros Hwf Hw Ha. destruct (legal_move a Hwf Ha) as (Hres & _).
  exists (move b a). split; [exact Hres|].
  pose proof (all_boards_check _ only_mover_wins_all Hwf) as H.
  unfold only_mover_wins in H. rewrite Hw, forallb_forall in H.
  specialize (H a Ha). destruct (winner (move b a)) as [[m|]|]; [| |discriminate].
  - right. apply mark_eqb_eq in H. rewrite H. reflexivity.
  - left. reflexivity.
Qed.

Lemma only_the_mover_wins_witness :
  exists b',
    result open_row (0, 2) = Val b' /\
    (winner b' = Val None \/ winner b' = Val (Some (player open_row))).
Proof.
  apply (@only_the_mover_wins open_row (0, 2)).
  - apply wf_boardb_spec. reflexivity.
  - reflexivity.
  - simpl. tauto.
Defined.
